(** * Verification of the streaming subtitle core of realtime_subtitles

    Shallow embeddings of
    - [livecaptions/manager.py]  : [TranslationStateManager]   (module [Manager])
    - [audio/buffer.py]          : [StreamingAudioBuffer]      (module [Buffer])
    - [vosk_pipeline.py]         : the conflation slot shared by
                                   [_process_loop] / [_translation_loop]
                                   (module [Conflation]). *)

From Stdlib Require Import String Ascii List Bool Arith Lia NArith QArith Qround.
Import ListNotations.
Open Scope nat_scope.
Open Scope list_scope.

(** ** Python strings

    A Python [str] is a sequence of Unicode code points. *)
Definition pystr := list N.

Fixpoint str_eqb (a b : pystr) : bool :=
  match a, b with
  | [], [] => true
  | x :: a', y :: b' => N.eqb x y && str_eqb a' b'
  | _, _ => false
  end.


(** ASCII literals as Python strings (for concrete runs). *)
Definition py (s : string) : pystr :=
  map (fun c => N_of_ascii c) (list_ascii_of_string s).

(** [str.isspace] for one code point: the characters Python's
    argument-less [str.strip] removes. *)
Definition is_space (c : N) : bool :=
  ((9 <=? c) && (c <=? 13))%N || ((28 <=? c) && (c <=? 32))%N
  || (c =? 133)%N || (c =? 160)%N || (c =? 5760)%N
  || ((8192 <=? c) && (c <=? 8202))%N
  || (c =? 8232)%N || (c =? 8233)%N || (c =? 8239)%N || (c =? 8287)%N
  || (c =? 12288)%N.

Fixpoint lstrip (s : pystr) : pystr :=
  match s with
  | c :: r => if is_space c then lstrip r else s
  | [] => []
  end.

(** [str.strip()] *)
Definition strip (s : pystr) : pystr := rev (lstrip (rev (lstrip s))).

(** [sep.join(xs)] *)
Fixpoint join (sep : pystr) (xs : list pystr) : pystr :=
  match xs with
  | [] => []
  | [x] => x
  | x :: r => x ++ sep ++ join sep r
  end.

Definition space : pystr := [32%N].
Definition newline : pystr := [10%N].

(** Python's [lst[-k:]] for [0 < k <= len(lst)]. *)
Definition lastn {A} (k : nat) (l : list A) : list A := skipn (length l - k) l.

(** ** [livecaptions/manager.py] *)
Module Manager.

(** [TranslationStateManager.SENTENCE_DELIMITERS = r'[.。？！?!\n，,、]'] *)
Definition is_delimiter (c : N) : bool :=
  (c =? 46)%N || (c =? 12290)%N || (c =? 65311)%N || (c =? 65281)%N
  || (c =? 63)%N || (c =? 33)%N || (c =? 10)%N || (c =? 65292)%N
  || (c =? 44)%N || (c =? 12289)%N.

Definition MAX_SENTENCE_LENGTH : nat := 80.
Definition DRAFT_COMMIT_THRESHOLD : nat := 6.
Definition COMMIT_COUNT : nat := 4.
Definition DRAFT_CHAR_THRESHOLD : nat := 150.
Definition FUZZY_THRESHOLD : Q := (65 # 100)%Q.
Definition MAX_DRAFT_SENTENCES : nat := 8.

(** [re.split(SENTENCE_DELIMITERS, text)]: a single-character class, so
    every delimiter ends one part (consecutive delimiters give empty parts). *)
Fixpoint re_split (s : pystr) : list pystr :=
  match s with
  | [] => [[]]
  | c :: r =>
      let parts := re_split r in
      if is_delimiter c then [] :: parts
      else match parts with
           | p :: ps => (c :: p) :: ps
           | [] => [[c]]
           end
  end.

(** [for i in range(0, len(part), MAX_SENTENCE_LENGTH): part[i:i+MAX]] *)
Fixpoint fixed_chunks (fuel : nat) (part : pystr) : list pystr :=
  match fuel with
  | O => []
  | S fuel' =>
      match part with
      | [] => []
      | _ => firstn MAX_SENTENCE_LENGTH part
               :: fixed_chunks fuel' (skipn MAX_SENTENCE_LENGTH part)
      end
  end.

(** [TranslationStateManager._segment_sentences] *)
Definition segment_sentences (text : pystr) : list pystr :=
  match text with
  | [] => []
  | _ =>
      flat_map
        (fun part0 =>
           let part := strip part0 in
           match part with
           | [] => []
           | _ =>
               if MAX_SENTENCE_LENGTH <? length part then
                 flat_map (fun ch => match strip ch with
                                     | [] => []
                                     | chunk => [chunk]
                                     end)
                   (fixed_chunks (length part) part)
               else [part]
           end)
        (re_split text)
  end.

(** The dataclass [TranslationState]. *)
Record TranslationState := mkState {
  committed_text : pystr;
  draft_text : pystr
}.

(** The fields of a [TranslationStateManager] instance. *)
Record TSM := mkTSM {
  committed_sources : list pystr;
  committed_paragraphs : list pystr;
  draft_sources : list pystr;
  draft_translation : pystr;
  last_processed_text : pystr
}.

(** [__init__] and [reset] give the same field values. *)
Definition fresh : TSM := mkTSM [] [] [] [] [].

(** The instance together with the inputs of every translator call made so
    far (the translator may depend on them, e.g. a stateful engine). *)
Record World := mkWorld { tsm : TSM; calls : list pystr }.

(** *** A state monad with Python exceptions

    A raised exception keeps the mutations made before it, as in Python. *)
Inductive result (A : Type) : Type := Ok (a : A) | Raise.
Arguments Ok {A} a.
Arguments Raise {A}.

Definition M (A : Type) : Type := World -> result A * World.

Definition ret {A} (a : A) : M A := fun w => (Ok a, w).
Definition bind {A B} (m : M A) (k : A -> M B) : M B :=
  fun w => match m w with
           | (Ok a, w') => k a w'
           | (Raise, w') => (Raise, w')
           end.

Notation "x <- m ;; k" := (bind m (fun x => k))
  (at level 61, m at next level, right associativity).
Notation "m ;; k" := (bind m (fun _ => k))
  (at level 61, right associativity).

(** [try: m except Exception: h] *)
Definition try_except {A} (m : M A) (h : M A) : M A :=
  fun w => match m w with
           | (Ok a, w') => (Ok a, w')
           | (Raise, w') => h w'
           end.

Definition gets {A} (f : TSM -> A) : M A := fun w => (Ok (f (tsm w)), w).
Definition modify (f : TSM -> TSM) : M unit :=
  fun w => (Ok tt, mkWorld (f (tsm w)) (calls w)).
Definition skip : M unit := ret tt.

Definition set_committed_sources (v : list pystr) : M unit :=
  modify (fun s => mkTSM v (committed_paragraphs s) (draft_sources s)
                      (draft_translation s) (last_processed_text s)).
Definition set_committed_paragraphs (v : list pystr) : M unit :=
  modify (fun s => mkTSM (committed_sources s) v (draft_sources s)
                      (draft_translation s) (last_processed_text s)).
Definition set_draft_sources (v : list pystr) : M unit :=
  modify (fun s => mkTSM (committed_sources s) (committed_paragraphs s) v
                      (draft_translation s) (last_processed_text s)).
Definition set_draft_translation (v : pystr) : M unit :=
  modify (fun s => mkTSM (committed_sources s) (committed_paragraphs s)
                      (draft_sources s) v (last_processed_text s)).
Definition set_last_processed_text (v : pystr) : M unit :=
  modify (fun s => mkTSM (committed_sources s) (committed_paragraphs s)
                      (draft_sources s) (draft_translation s) v).

(** A translator function: given the inputs of the earlier calls and the
    text, it returns the translation ([None] from Python counts as [""],
    as [x or ""] makes it) or raises ([None] here). *)
Definition Translator := list pystr -> pystr -> option pystr.

(** [self.translator(text)] *)
Definition call (f : Translator) (text : pystr) : M pystr :=
  fun w => (match f (calls w) text with Some t => Ok t | None => Raise end,
            mkWorld (tsm w) (calls w ++ [text])).

Definition sum_len (xs : list pystr) : nat :=
  fold_right (fun s n => length s + n) 0 xs.

(** A call on a [TranslationStateManager] instance. *)
Inductive op : Type :=
| Process (full_source_text : pystr)
| Reset.

Section Operations.

(** [self.translator] ([None] when the manager was built without one). *)
Variable translator : option Translator.

(** [str.lower] and [SequenceMatcher(None, a, b).ratio()] of [difflib]:
    library code, kept abstract here; every theorem of this section holds
    for any functions in their place.  [difflib_ratio] below is a model of
    the real one, used for concrete runs. *)
Variable str_lower : pystr -> pystr.
Variable sm_ratio : pystr -> pystr -> Q.

(** [_similarity] *)
Definition similarity (a b : pystr) : Q :=
  match a, b with
  | [], _ | _, [] => 0%Q
  | _, _ => sm_ratio (str_lower a) (str_lower b)
  end.

(** [_build_state] *)
Definition build_state : M TranslationState :=
  gets (fun s => mkState (join newline (committed_paragraphs s))
                         (draft_translation s)).

(** [_retranslate_committed] *)
Definition retranslate_committed : M unit :=
  cs <- gets committed_sources;;
  match cs, translator with
  | [], _ | _, None => set_committed_paragraphs []
  | _, Some f =>
      try_except
        (translated <- call f (join space cs);;
         set_committed_paragraphs
           (match translated with [] => [] | _ => [translated] end))
        skip
  end.

(** The [for i, committed_src in enumerate(self._committed_sources)] loop
    of [_find_committed_end]; [cs] is the list being enumerated. *)
Fixpoint find_committed_loop (ss cs : list pystr) (i matched : nat) : M nat :=
  match cs with
  | [] => ret matched
  | committed_src :: rest =>
      if length ss <=? matched then
        cur <- gets committed_sources;;
        set_committed_sources (firstn matched cur);;
        retranslate_committed;;
        ret matched
      else if Qle_bool FUZZY_THRESHOLD
                (similarity committed_src (nth matched ss [])) then
        find_committed_loop ss rest (S i) (S matched)
      else
        cur <- gets committed_sources;;
        set_committed_sources (firstn i cur);;
        retranslate_committed;;
        ret matched
  end.

(** [_find_committed_end] *)
Definition find_committed_end (ss : list pystr) : M nat :=
  cs <- gets committed_sources;;
  match cs with
  | [] => ret 0
  | _ => find_committed_loop ss cs 0 0
  end.

(** [_check_commit_threshold] *)
Definition check_commit_threshold : M unit :=
  draft <- gets draft_sources;;
  let total_draft_sources := length draft in
  let draft_char_length := sum_len draft in
  if (DRAFT_COMMIT_THRESHOLD <=? total_draft_sources)
     || (DRAFT_CHAR_THRESHOLD <=? draft_char_length) then
    let commit_target :=
      if total_draft_sources <? COMMIT_COUNT
      then Nat.max 1 (total_draft_sources - 1) else COMMIT_COUNT in
    let to_commit := firstn commit_target draft in
    cs <- gets committed_sources;;
    set_committed_sources (cs ++ to_commit);;
    match translator with
    | Some f =>
        try_except
          (batch_translation <- call f (join space to_commit);;
           match batch_translation with
           | [] => skip
           | _ => ps <- gets committed_paragraphs;;
                  set_committed_paragraphs (ps ++ [batch_translation])
           end)
          skip
    | None => skip
    end;;
    cur <- gets draft_sources;;
    set_draft_sources (skipn COMMIT_COUNT cur);;
    rest <- gets draft_sources;;
    match rest, translator with
    | _ :: _, Some f =>
        try_except
          (t <- call f (join space rest);; set_draft_translation t)
          skip
    | _, _ => set_draft_translation []
    end
  else skip.

(** Lines 121-131 of [process_text]: a draft longer than
    [MAX_DRAFT_SENTENCES] has its oldest excess moved to the committed
    sources. *)
Definition cap_draft (draft_sources : list pystr) : M (list pystr) :=
  if MAX_DRAFT_SENTENCES <? length draft_sources then
    let skipped_count := length draft_sources - MAX_DRAFT_SENTENCES in
    let skipped_part := firstn skipped_count draft_sources in
    cs <- gets committed_sources;;
    set_committed_sources (cs ++ skipped_part);;
    ret (skipn skipped_count draft_sources)
  else ret draft_sources.

(** Lines 140-148 of [process_text]: overwrite the draft translation. *)
Definition translate_draft (draft_sources : list pystr) : M unit :=
  match translator with
  | Some f =>
      try_except
        (translated <- call f (join space draft_sources);;
         set_draft_translation translated)
        (set_draft_translation [])
  | None => skip
  end.

(** [process_text] *)
Definition process_text (full_source_text : pystr) : M TranslationState :=
  last <- gets last_processed_text;;
  if str_eqb full_source_text last then build_state else
  set_last_processed_text full_source_text;;
  match full_source_text, strip full_source_text with
  | [], _ | _, [] => build_state
  | _, _ =>
      match segment_sentences full_source_text with
      | [] => build_state
      | ss0 =>
          cs <- gets committed_sources;;
          let source_sentences :=
            match cs with
            | [] => if DRAFT_COMMIT_THRESHOLD <? length ss0
                    then lastn DRAFT_COMMIT_THRESHOLD ss0 else ss0
            | _ => ss0
            end in
          committed_end_index <- find_committed_end source_sentences;;
          draft <- cap_draft (skipn committed_end_index source_sentences);;
          set_draft_sources draft;;
          match draft with
          | [] => set_draft_translation [];; build_state
          | _ => translate_draft draft;;
                 check_commit_threshold;;
                 build_state
          end
      end
  end.

(** [reset] *)
Definition reset : M unit := modify (fun _ => fresh).

(** A sequence of [process_text] calls on one instance. *)
Fixpoint process_all (texts : list pystr) : M (list TranslationState) :=
  match texts with
  | [] => ret []
  | t :: rest =>
      st <- process_text t;;
      sts <- process_all rest;;
      ret (st :: sts)
  end.

(** A sequence of calls on one instance. *)
Fixpoint run_ops (ops : list op) : M unit :=
  match ops with
  | [] => ret tt
  | Process t :: rest => process_text t;; run_ops rest
  | Reset :: rest => reset;; run_ops rest
  end.

End Operations.

(** *** A model of [difflib.SequenceMatcher(None, a, b).ratio()]

    With [isjunk=None] and [len(b) < 200] (sentences are at most
    [MAX_SENTENCE_LENGTH] long, so [autojunk] never applies), the matcher's
    [find_longest_match] returns the longest common block, the first one by
    its start in [a] and then in [b]; [get_matching_blocks] recurses on both
    sides of it, and [ratio] is [2*M/T]. *)
Fixpoint common_prefix (a b : pystr) : nat :=
  match a, b with
  | x :: a', y :: b' => if N.eqb x y then S (common_prefix a' b') else 0
  | _, _ => 0
  end.

Definition block_at (a b : pystr) (ahi bhi i j : nat) : nat :=
  common_prefix (firstn (ahi - i) (skipn i a)) (firstn (bhi - j) (skipn j b)).

Definition find_longest_match (a b : pystr) (alo ahi blo bhi : nat)
  : nat * nat * nat :=
  fold_left
    (fun best ij =>
       let '(i, j) := ij in
       let '(_, _, bestsize) := best in
       let k := block_at a b ahi bhi i j in
       if bestsize <? k then (i, j, k) else best)
    (flat_map (fun i => map (pair i) (seq blo (bhi - blo))) (seq alo (ahi - alo)))
    (alo, blo, 0).

(** Total size of [get_matching_blocks] on [a[alo:ahi]], [b[blo:bhi]]. *)
Fixpoint matched_total (fuel : nat) (a b : pystr) (alo ahi blo bhi : nat)
  : nat :=
  match fuel with
  | O => 0
  | S fuel' =>
      let '(i, j, k) := find_longest_match a b alo ahi blo bhi in
      if k =? 0 then 0
      else k
           + (if (alo <? i) && (blo <? j)
              then matched_total fuel' a b alo i blo j else 0)
           + (if (i + k <? ahi) && (j + k <? bhi)
              then matched_total fuel' a b (i + k) ahi (j + k) bhi else 0)
  end.

Definition difflib_ratio (a b : pystr) : Q :=
  let t := length a + length b in
  if t =? 0 then 1%Q
  else (Z.of_nat (2 * matched_total (S (length a)) a b 0 (length a) 0 (length b))
        # Pos.of_nat t)%Q.

(** [str.lower] on ASCII letters (the concrete runs below are ASCII). *)
Definition ascii_lower (s : pystr) : pystr :=
  map (fun c => if ((65 <=? c) && (c <=? 90))%N then (c + 32)%N else c) s.


(** *** Translators for concrete runs *)

(** Prefixes ["T"] to its input. *)
Definition tag_translator : Translator :=
  fun _ text => Some (py "T" ++ text).

(** Like [tag_translator], but raises on exactly the inputs in [bad]. *)
Definition failing_translator (bad : list pystr) : Translator :=
  fun _ text => if existsb (str_eqb text) bad then None
                else Some (py "T" ++ text).

(** *** Inputs of the concrete runs *)

Definition six_sentences_text : pystr := py "A. B. C. D. E. F.".

(** 160 characters without a delimiter: two hard-split sentences. *)
Definition run_on_text : pystr := repeat 97%N 80 ++ repeat 98%N 80.

(** Commit [a b c d], then [e f g h], then diverge at the second sentence. *)
Definition divergence_texts : list pystr :=
  [py "a, b, c, d, e, f"; py "a, b, c, d, e, f, g, h, i, j"; py "a, x"].

(** The fields [process_text]'s helpers must not touch. *)
Definition same_draft (s s' : TSM) : Prop :=
  draft_sources s' = draft_sources s
  /\ draft_translation s' = draft_translation s
  /\ last_processed_text s' = last_processed_text s.

Definition state_of (s : TSM) : TranslationState :=
  mkState (join newline (committed_paragraphs s)) (draft_translation s).

(** Every committed paragraph is a non-empty string. *)
Definition paragraphs_nonempty (s : TSM) : Prop :=
  Forall (fun p => p <> []) (committed_paragraphs s).

(** An empty draft has an empty draft translation. *)
Definition draft_inv (s : TSM) : Prop :=
  draft_sources s = [] -> draft_translation s = [].

(** No translated text at all. *)
Definition no_translation (s : TSM) : Prop :=
  committed_paragraphs s = [] /\ draft_translation s = [].

End Manager.

(** ** [audio/buffer.py] *)
Module Buffer.

Definition SAMPLE_RATE : Z := 16000.

(** The constructor arguments [StreamingAudioBuffer] stores.  The speech
    classification ([use_vad] and the detector) is an input of each
    [add_audio] call, as is [time.time()]. *)
Record Config := mkConfig {
  min_segment_duration : Q;
  max_segment_duration : Q;
  speech_pad_ms : nat
}.

(** [deque(maxlen=int(self.SAMPLE_RATE * speech_pad_ms / 1000))] *)
Definition pre_buffer_maxlen (cfg : Config) : nat := 16 * speech_pad_ms cfg.

Section WithSamples.

(** A float32 sample; [add_audio] only moves samples around. *)
Variable Sample : Type.

Definition chunk := list Sample.

(** The instance fields of [StreamingAudioBuffer]. *)
Record State := mkState {
  buffer : list chunk;
  buffer_samples : nat;
  speech_started : bool;
  speech_start_time : option Q;
  silence_start_time : option Q;
  pre_buffer : list Sample
}.

Definition init : State := mkState [] 0 false None None [].

(** [deque.append] on a deque with [maxlen] [m]: the leftmost item is
    dropped when it is full. *)
Definition deque_append (m : nat) (d : list Sample) (x : Sample) : list Sample :=
  let d' := d ++ [x] in
  if m <? length d' then skipn (length d' - m) d' else d'.

(** [n / self.SAMPLE_RATE] seconds. *)
Definition samples_duration (n : nat) : Q := (Z.of_nat n # Z.to_pos SAMPLE_RATE)%Q.

(** [_get_buffer_duration] *)
Definition buffer_duration (st : State) : Q := samples_duration (buffer_samples st).

(** [_flush_buffer_unlocked] *)
Definition flush (st : State) : State * option chunk :=
  match buffer st with
  | [] => (st, None)
  | chunks =>
      (mkState [] 0 (speech_started st) (speech_start_time st)
               (silence_start_time st) (pre_buffer st),
       Some (concat chunks))
  end.

(** Lines 188-203 of [add_audio]: the max-duration check; the returned
    segment is what [on_segment_ready] is started with. *)
Definition check_max_duration (cfg : Config) (st : State)
  : State * option chunk :=
  if Qle_bool (max_segment_duration cfg) (buffer_duration st) then
    flush (mkState (buffer st) (buffer_samples st) false None
                   (silence_start_time st) (pre_buffer st))
  else (st, None).

(** [add_audio(audio)], with the VAD's verdict [is_speech] and
    [current_time = time.time()]. *)
Definition add_audio (cfg : Config) (st : State) (audio : chunk)
    (is_speech : bool) (current_time : Q) : State * option chunk :=
  if is_speech then
    check_max_duration cfg
      (mkState (buffer st ++ [audio]) (buffer_samples st + length audio) true
         (if speech_started st then speech_start_time st else Some current_time)
         None (pre_buffer st))
  else if speech_started st then
    let silence_start :=
      match silence_start_time st with
      | None => current_time
      | Some t => t
      end in
    let st1 := mkState (buffer st ++ [audio]) (buffer_samples st + length audio)
                 true (speech_start_time st) (Some silence_start)
                 (pre_buffer st) in
    let silence_duration := (current_time - silence_start)%Q in
    if negb (Qle_bool silence_duration (Z.of_nat (speech_pad_ms cfg) # 1000))
    then flush (mkState (buffer st1) (buffer_samples st1) false None
                        (silence_start_time st1) (pre_buffer st1))
    else check_max_duration cfg st1
  else
    check_max_duration cfg
      (mkState (buffer st) (buffer_samples st) false (speech_start_time st)
         (silence_start_time st)
         (fold_left (deque_append (pre_buffer_maxlen cfg)) audio (pre_buffer st))).

(** [_trigger_transcription] (not called by [add_audio]): the pre-roll is
    prepended to the flushed audio. *)
Definition trigger_transcription (st : State) : State * option chunk :=
  let '(st', audio) := flush st in
  match audio with
  | Some ((_ :: _) as a) =>
      match pre_buffer st' with
      | [] => (st', Some a)
      | pre => (st', Some (pre ++ a))
      end
  | _ => (st', None)
  end.

(** A sequence of [add_audio] calls: chunk, speech verdict and time of each;
    the result lists, per call, the segment handed to [on_segment_ready]. *)
Fixpoint add_all (cfg : Config) (st : State) (inputs : list (chunk * bool * Q))
  : State * list (option chunk) :=
  match inputs with
  | [] => (st, [])
  | (audio, is_speech, t) :: rest =>
      let '(st1, out) := add_audio cfg st audio is_speech t in
      let '(st2, outs) := add_all cfg st1 rest in
      (st2, out :: outs)
  end.

End WithSamples.

Arguments init {Sample}.
Arguments mkState {Sample}.
Arguments buffer {Sample}.
Arguments buffer_samples {Sample}.
Arguments speech_started {Sample}.
Arguments speech_start_time {Sample}.
Arguments silence_start_time {Sample}.
Arguments pre_buffer {Sample}.
Arguments deque_append {Sample}.
Arguments buffer_duration {Sample}.
Arguments flush {Sample}.
Arguments check_max_duration {Sample}.
Arguments add_audio {Sample}.
Arguments trigger_transcription {Sample}.
Arguments add_all {Sample}.

(** Total number of samples of a list of chunks. *)
Definition total_samples {Sample} (chunks : list (list Sample)) : nat :=
  fold_right (fun c n => length c + n) 0 chunks.

(** [StreamingAudioBuffer(on_segment_ready)] with its default arguments. *)
Definition default_config : Config := mkConfig 1 10 200.

(** A small configuration: segments are forced at three samples. *)
Definition tiny_config : Config := mkConfig 1 (3 # 16000) 200.

(** A silent chunk [1] while idle, a speech chunk [5], then
    two silent chunks, the last one 1 s after the first silence. *)
Definition preroll_inputs : list (chunk Z * bool * Q) :=
  [([1%Z], false, 0%Q); ([5%Z], true, 1%Q); ([0%Z], false, 2%Q);
   ([0%Z], false, 3%Q)].

(** The audio a call hands to [on_segment_ready] ([] when none). *)
Definition emitted {Sample} (out : option (list Sample)) : list Sample :=
  match out with Some a => a | None => [] end.

End Buffer.

(** ** [audio/buffer.py]: [SimpleAudioBuffer] *)
Module SimpleBuffer.

Section WithSamples.

Variable Sample : Type.

(** The instance fields [_buffer] and [_buffer_samples]. *)
Record State := mkState {
  buffer : list (list Sample);
  buffer_samples : nat
}.

Definition init : State := mkState [] 0.

(** [SimpleAudioBuffer.add_audio(audio)] with [_target_samples = target];
    the returned segment is what [on_segment_ready] is started with. *)
Definition add_audio (target : nat) (st : State) (audio : list Sample)
  : State * option (list Sample) :=
  let b := buffer st ++ [audio] in
  let n := buffer_samples st + length audio in
  if target <=? n then (mkState [] 0, Some (concat b))
  else (mkState b n, None).

Fixpoint add_all (target : nat) (st : State) (inputs : list (list Sample))
  : State * list (option (list Sample)) :=
  match inputs with
  | [] => (st, [])
  | audio :: rest =>
      let '(st1, out) := add_audio target st audio in
      let '(st2, outs) := add_all target st1 rest in
      (st2, out :: outs)
  end.

End WithSamples.

Arguments mkState {Sample}.
Arguments buffer {Sample}.
Arguments buffer_samples {Sample}.
Arguments init {Sample}.
Arguments add_audio {Sample}.
Arguments add_all {Sample}.

(** [_target_samples = int(SAMPLE_RATE * segment_duration)], with the
    duration an exact rational.  A negative product truncates to a
    non-positive [int], which every sample count reaches, as [0] does. *)
Definition target_samples (segment_duration : Q) : nat :=
  Z.to_nat (Qfloor (16000 * segment_duration)).

End SimpleBuffer.

(** ** The conflation slot of [vosk_pipeline.StreamingPipeline] *)
Module Conflation.

(** [_latest_raw_text] and [_new_text_event]. *)
Record Slot := mkSlot {
  latest_raw_text : pystr;
  new_text_event : bool
}.

(** State after [start()]. *)
Definition started : Slot := mkSlot [] false.

(** One iteration of [_process_loop] once the recognizer returned
    [raw_text]: write it to the slot unless empty or unchanged. *)
Definition produce (raw_text : pystr) (s : Slot) : Slot :=
  match raw_text with
  | [] => s
  | _ => if str_eqb raw_text (latest_raw_text s) then s
         else mkSlot raw_text true
  end.

(** One iteration of [_translation_loop]: when the event is set, take the
    latest text and clear the event (under [_text_lock]); otherwise the
    wait times out. *)
Definition consume (s : Slot) : option pystr * Slot :=
  if new_text_event s then (Some (latest_raw_text s), mkSlot (latest_raw_text s) false)
  else (None, s).

(** An interleaving of the two loops. *)
Inductive step := Produce (raw_text : pystr) | Consume.

(** What each step did: a write of the slot, a take by the consumer, or
    nothing. *)
Inductive obs := Wrote (v : pystr) | Took (v : pystr) | Idle.

Fixpoint run (s : Slot) (sched : list step) : list obs :=
  match sched with
  | [] => []
  | Produce raw :: rest =>
      let s' := produce raw s in
      (if str_eqb (latest_raw_text s') (latest_raw_text s)
          && Bool.eqb (new_text_event s') (new_text_event s)
       then Idle else Wrote raw) :: run s' rest
  | Consume :: rest =>
      let '(taken, s') := consume s in
      (match taken with Some v => Took v | None => Idle end) :: run s' rest
  end.

(** Every take is the newest write so far ([last]) and at least one write
    happened since the previous take ([pending]). *)
Fixpoint takes_newest (last : option pystr) (pending : bool) (tr : list obs)
  : bool :=
  match tr with
  | [] => true
  | Wrote v :: rest => takes_newest (Some v) true rest
  | Took v :: rest =>
      pending
      && match last with Some u => str_eqb u v | None => false end
      && takes_newest last false rest
  | Idle :: rest => takes_newest last pending rest
  end.

End Conflation.

(** ** Facts about the conflation slot *)
(** ** Facts about the string helpers *)

Lemma str_eqb_eq (a b : pystr) : str_eqb a b = true <-> a = b.
Proof.
  revert b; induction a as [|x a IH]; intros [|y b]; simpl;
    try (split; congruence).
  rewrite andb_true_iff, N.eqb_eq, IH. split; [intros [-> ->]; reflexivity|].
  intros H; inversion H; auto.
Qed.

Lemma str_eqb_refl (a : pystr) : str_eqb a a = true.
Proof. apply str_eqb_eq; reflexivity. Qed.

Example difflib_ratio_abcd : Qeq (Manager.difflib_ratio (py "abcd") (py "bcde")) (3 # 4).
Proof. reflexivity. Qed.

Module ConflationFacts.
Import Conflation.

#[local] Arguments str_eqb : simpl never.

Definition slot_inv (s : Slot) (last : option pystr) (pending : bool) : Prop :=
  new_text_event s = pending
  /\ (pending = true -> last = Some (latest_raw_text s)).

Lemma run_takes_newest (sched : list step) :
  forall s last pending,
    slot_inv s last pending -> takes_newest last pending (run s sched) = true.
Proof.
  induction sched as [|[raw|] sched IH]; intros [v ev] last pending [He Hl];
    cbn in *; [reflexivity| |].
  - destruct raw as [|ch r]; cbn.
    + rewrite str_eqb_refl, eqb_reflx; cbn; apply IH; split; auto.
    + destruct (str_eqb (ch :: r) v) eqn:E; cbn.
      * rewrite str_eqb_refl, eqb_reflx; cbn; apply IH; split; auto.
      * rewrite E; cbn; apply IH; split; auto.
  - unfold consume; cbn; destruct ev; cbn.
    + subst pending; rewrite (Hl eq_refl), str_eqb_refl; cbn.
      apply IH; split; [reflexivity|discriminate].
    + apply IH; split; auto.
Qed.

(** C3: three writes before one wake-up are seen as the last one only; and
    in every interleaving of the two loops from [start()], each value the
    consumer takes is the newest write at that moment, with a write since
    its previous take, so an older hypothesis never follows a newer one. *)
Theorem consumer_takes_newest :
  (forall (s : Slot) (v1 v2 v3 : pystr),
      v1 <> [] -> v1 <> latest_raw_text s ->
      v2 <> [] -> v2 <> v1 ->
      v3 <> [] -> v3 <> v2 ->
      fst (consume (produce v3 (produce v2 (produce v1 s)))) = Some v3)
  /\ (forall sched : list step,
        takes_newest None false (run started sched) = true).
Proof.
  split.
  - intros [l e] v1 v2 v3 H1 H1' H2 H2' H3 H3'; cbn in *.
    assert (Hneq : forall a b : pystr, a <> b -> str_eqb a b = false)
      by (intros a b Hab; destruct (str_eqb a b) eqn:E;
          [apply str_eqb_eq in E; contradiction|reflexivity]).
    unfold produce.
    destruct v1 as [|x1 r1]; [contradiction|]; cbn; rewrite (Hneq _ _ H1'); cbn.
    destruct v2 as [|x2 r2]; [contradiction|]; cbn; rewrite (Hneq _ _ H2'); cbn.
    destruct v3 as [|x3 r3]; [contradiction|]; cbn; rewrite (Hneq _ _ H3'); cbn.
    reflexivity.
  - intros sched; apply run_takes_newest; split; [reflexivity|discriminate].
Qed.

(** C3 witness. *)
Lemma consumer_takes_newest_witness :
  fst (consume (produce (py "c") (produce (py "b") (produce (py "a") started))))
  = Some (py "c").
Proof.
  apply (proj1 consumer_takes_newest); cbv; discriminate.
Defined.

Lemma run_nonempty (sched : list step) :
  forall s : Slot,
    (new_text_event s = true -> latest_raw_text s <> []) ->
    Forall (fun o => match o with
                     | Wrote v | Took v => v <> []
                     | Idle => True
                     end) (run s sched).
Proof.
  induction sched as [|[raw|] sched IH]; intros [v ev] H; cbn in *;
    [constructor| |].
  - destruct raw as [|c r]; cbn.
    + rewrite str_eqb_refl, eqb_reflx; cbn; constructor; [exact I|].
      apply IH; exact H.
    + destruct (str_eqb (c :: r) v) eqn:E; cbn.
      * rewrite str_eqb_refl, eqb_reflx; cbn; constructor; [exact I|].
        apply IH; exact H.
      * constructor; [destruct (_ && _); [exact I|discriminate]|].
        apply IH; cbn; intros _; discriminate.
  - unfold consume; cbn; destruct ev; cbn; constructor.
    + exact (H eq_refl).
    + apply IH; cbn; discriminate.
    + exact I.
    + apply IH; exact H.
Qed.

(** The slot never carries an empty text: in every interleaving of
    [_process_loop] and [_translation_loop] from [start()], every text
    written to the slot and every text the translation loop takes is
    non-empty (the ASR loop skips empty results). *)
Theorem slot_texts_nonempty (sched : list step) :
  Forall (fun o => match o with
                   | Wrote v | Took v => v <> []
                   | Idle => True
                   end) (run started sched).
Proof. apply run_nonempty; cbn; discriminate. Qed.

End ConflationFacts.

(** ** Facts about [StreamingAudioBuffer] *)
Module BufferFacts.
Import Buffer.

Lemma samples_duration_mono (n m : nat) :
  n <= m -> (samples_duration n <= samples_duration m)%Q.
Proof.
  intros H; unfold samples_duration, Qle; cbn; lia.
Qed.

Section Steps.
Variable Sample : Type.
Variable cfg : Config.

Lemma speech_below_max (st : State Sample) (c : chunk Sample) (t : Q) :
  ~ (max_segment_duration cfg
     <= samples_duration (buffer_samples st + length c))%Q ->
  add_audio cfg st c true t
  = (mkState (buffer st ++ [c]) (buffer_samples st + length c) true
       (if speech_started st then speech_start_time st else Some t)
       None (pre_buffer st), None).
Proof.
  intros H; unfold add_audio, check_max_duration, buffer_duration; cbn.
  destruct (Qle_bool _ _) eqn:E; [apply Qle_bool_iff in E; contradiction|].
  reflexivity.
Qed.

Lemma speech_run_below_max (pre : list (chunk Sample * Q)) :
  forall st : State Sample,
    (samples_duration (buffer_samples st + total_samples (map fst pre))
     < max_segment_duration cfg)%Q ->
    exists st',
      add_all cfg st (map (fun '(a, t) => (a, true, t)) pre)
        = (st', repeat None (length pre))
      /\ buffer st' = buffer st ++ map fst pre
      /\ buffer_samples st' = buffer_samples st + total_samples (map fst pre)
      /\ silence_start_time st'
         = match pre with [] => silence_start_time st | _ => None end
      /\ pre_buffer st' = pre_buffer st.
Proof.
  induction pre as [|[a t] pre IH]; intros st H;
    cbn [map add_all length repeat total_samples fold_right fst] in *.
  - exists st; rewrite app_nil_r, Nat.add_0_r; auto.
  - rewrite speech_below_max.
    2: { intros Hle; apply (Qlt_not_le _ _ H).
         eapply Qle_trans; [exact Hle|]; apply samples_duration_mono.
         unfold total_samples; lia. }
    destruct (IH (mkState (buffer st ++ [a]) (buffer_samples st + length a)
                  true (if speech_started st then speech_start_time st else Some t)
                  None (pre_buffer st))) as (st' & Hrun & B & N & Si & P).
    + eapply Qle_lt_trans; [|exact H]; apply samples_duration_mono; cbn.
      unfold total_samples; lia.
    + rewrite Hrun; exists st'; split; [reflexivity|]; cbn in B, N, Si, P.
      rewrite B, N, <- app_assoc; repeat split; auto;
        [unfold total_samples; cbn; lia|].
      destruct pre; auto.
Qed.

Lemma add_all_app (st : State Sample) (l1 l2 : list (chunk Sample * bool * Q)) :
  add_all cfg st (l1 ++ l2)
  = let '(st1, o1) := add_all cfg st l1 in
    let '(st2, o2) := add_all cfg st1 l2 in
    (st2, o1 ++ o2).
Proof.
  revert st; induction l1 as [|[[a b] t] l1 IH]; intros st; cbn [app add_all].
  - destruct (add_all cfg st l2); reflexivity.
  - destruct (add_audio cfg st a b t) as [st1 o]; rewrite IH.
    destruct (add_all cfg st1 l1) as [st2 o1].
    destruct (add_all cfg st2 l2) as [st3 o2]; reflexivity.
Qed.

(** C8: feeding speech chunks, no segment is emitted while the buffered
    duration stays below [max_segment_duration]; on the first call that
    reaches it, the whole buffer is emitted and flushed, and the speech
    tracking is reset, with no silence observed. *)
Theorem forced_emission_at_max (st : State Sample)
    (pre : list (chunk Sample * Q)) (c : chunk Sample) (t : Q) :
  (samples_duration (buffer_samples st + total_samples (map fst pre))
     < max_segment_duration cfg)%Q ->
  (max_segment_duration cfg
     <= samples_duration (buffer_samples st + total_samples (map fst pre)
                          + length c))%Q ->
  add_all cfg st (map (fun '(a, t) => (a, true, t)) pre ++ [(c, true, t)])
  = (mkState [] 0 false None None (pre_buffer st),
     repeat None (length pre)
       ++ [Some (concat (buffer st ++ map fst pre ++ [c]))]).
Proof.
  intros Hbelow Hreach.
  rewrite add_all_app.
  destruct (speech_run_below_max pre st Hbelow) as (st' & -> & B & N & Si & P).
  cbn [add_all]; unfold add_audio, check_max_duration, buffer_duration; cbn.
  rewrite N.
  destruct (Qle_bool _ _) eqn:E; [|apply Qle_bool_iff in Hreach; congruence].
  unfold flush; cbn; rewrite B, P, (app_assoc (buffer st)).
  destruct (buffer st ++ map fst pre) as [|x r]; reflexivity.
Qed.

End Steps.

Lemma add_audio_min_irrelevant {Sample} (mn1 mn2 mx : Q) (pad : nat)
    (st : State Sample) (audio : chunk Sample) (is_speech : bool) (t : Q) :
  add_audio (mkConfig mn1 mx pad) st audio is_speech t
  = add_audio (mkConfig mn2 mx pad) st audio is_speech t.
Proof. reflexivity. Qed.

(** C10: two buffers whose configurations differ only in
    [min_segment_duration] produce, from the same state and on the same
    chunks, speech verdicts and times, the same states and the same emitted
    segments. *)
Theorem emissions_ignore_min_segment_duration {Sample} (mn1 mn2 mx : Q)
    (pad : nat) (st : State Sample) (inputs : list (chunk Sample * bool * Q)) :
  add_all (mkConfig mn1 mx pad) st inputs
  = add_all (mkConfig mn2 mx pad) st inputs.
Proof.
  revert st; induction inputs as [|[[a b] t] rest IH]; intros st; cbn [add_all].
  - reflexivity.
  - rewrite (add_audio_min_irrelevant mn1 mn2).
    destruct (add_audio (mkConfig mn2 mx pad) st a b t) as [st1 o].
    rewrite IH; reflexivity.
Qed.


Lemma forced_emission_at_max_witness :
  (samples_duration (buffer_samples (@init Z) + total_samples (map fst [([1%Z], 0%Q); ([2%Z], 1%Q)]))
     < max_segment_duration tiny_config)%Q
  /\ (max_segment_duration tiny_config
      <= samples_duration (buffer_samples (@init Z)
           + total_samples (map fst [([1%Z], 0%Q); ([2%Z], 1%Q)]) + length [3%Z]))%Q
  /\ add_all tiny_config init
       (map (fun '(a, t) => (a, true, t)) [([1%Z], 0%Q); ([2%Z], 1%Q)]
          ++ [([3%Z], true, 2%Q)])
     = (mkState [] 0 false None None (pre_buffer (@init Z)),
        repeat None 2 ++ [Some (concat (buffer (@init Z) ++ [[1%Z]; [2%Z]] ++ [[3%Z]]))]).
Proof.
  assert (H1 : (samples_duration (buffer_samples (@init Z)
                 + total_samples (map fst [([1%Z], 0%Q); ([2%Z], 1%Q)]))
                < max_segment_duration tiny_config)%Q) by (vm_compute; reflexivity).
  assert (H2 : (max_segment_duration tiny_config
                <= samples_duration (buffer_samples (@init Z)
                     + total_samples (map fst [([1%Z], 0%Q); ([2%Z], 1%Q)])
                     + length [3%Z]))%Q) by (vm_compute; discriminate).
  split; [exact H1|]; split; [exact H2|].
  exact (forced_emission_at_max Z tiny_config init
           [([1%Z], 0%Q); ([2%Z], 1%Q)] [3%Z] 2%Q H1 H2).
Defined.


(** C9: the idle silence goes to the pre-roll only, but the segment handed
    to [on_segment_ready] when the speech ends is the main buffer alone:
    it does not begin with the pre-roll [1].  Only the uncalled
    [_trigger_transcription] would have prepended it. *)
Lemma preroll_not_prepended :
  buffer (fst (add_audio default_config init [1%Z] false 0%Q)) = []
  /\ pre_buffer (fst (add_audio default_config init [1%Z] false 0%Q)) = [1%Z]
  /\ snd (add_all default_config init preroll_inputs)
     = [None; None; None; Some [5%Z; 0%Z; 0%Z]]
  /\ pre_buffer (fst (add_all default_config init preroll_inputs)) = [1%Z]
  /\ firstn 1 [5%Z; 0%Z; 0%Z] <> [1%Z]
  /\ snd (trigger_transcription
            (fst (add_all default_config init (firstn 3 preroll_inputs))))
     = Some [1%Z; 5%Z; 0%Z].
Proof.
  repeat split; try (vm_compute; reflexivity).
  discriminate.
Qed.

(** *** Invariants of [StreamingAudioBuffer.add_audio] *)

Lemma lastn_app_long {A} (m : nat) (p s : list A) :
  m <= length s -> lastn m (p ++ s) = lastn m s.
Proof.
  intros H; unfold lastn; rewrite skipn_app, length_app.
  rewrite skipn_all2 by lia; cbn; f_equal; lia.
Qed.

Lemma lastn_app_lastn {A} (m : nat) (l r : list A) :
  lastn m (lastn m l ++ r) = lastn m (l ++ r).
Proof.
  destruct (Nat.leb_spec (length l) m) as [E|E].
  - unfold lastn at 2; replace (length l - m) with 0 by lia; reflexivity.
  - replace (l ++ r) with (firstn (length l - m) l ++ (lastn m l ++ r))
      by (unfold lastn; rewrite app_assoc, firstn_skipn; reflexivity).
    rewrite (lastn_app_long m (firstn (length l - m) l) (lastn m l ++ r));
      [reflexivity|].
    unfold lastn; rewrite length_app, length_skipn; lia.
Qed.

Lemma length_lastn {A} (m : nat) (l : list A) : length (lastn m l) <= m.
Proof. unfold lastn; rewrite length_skipn; lia. Qed.

Lemma deque_append_lastn {Sample} (m : nat) (d : list Sample) (x : Sample) :
  length d <= m -> deque_append m d x = lastn m (d ++ [x]).
Proof.
  intros H; unfold deque_append, lastn.
  destruct (Nat.ltb_spec m (length (d ++ [x]))); [reflexivity|].
  replace (length (d ++ [x]) - m) with 0 by lia; reflexivity.
Qed.

Lemma deque_append_fold {Sample} (m : nat) (xs : list Sample) :
  forall d : list Sample,
    length d <= m -> fold_left (deque_append m) xs d = lastn m (d ++ xs).
Proof.
  induction xs as [|x xs IH]; intros d Hd; cbn [fold_left].
  - rewrite app_nil_r; unfold lastn; replace (length d - m) with 0 by lia;
      reflexivity.
  - rewrite deque_append_lastn by exact Hd.
    rewrite IH by apply length_lastn.
    rewrite lastn_app_lastn, <- app_assoc; reflexivity.
Qed.

Lemma total_samples_app {Sample} (l r : list (list Sample)) :
  total_samples (l ++ r) = total_samples l + total_samples r.
Proof.
  unfold total_samples; rewrite fold_right_app.
  induction l as [|c l IH]; cbn; [reflexivity|].
  rewrite IH; lia.
Qed.

Ltac step_cases :=
  unfold add_audio, check_max_duration, flush, buffer_duration;
  cbn -[total_samples deque_append];
  repeat match goal with
  | |- context [if ?b then _ else _] => destruct b eqn:?
  | |- context [match ?l ++ [?a] with [] => _ | _ :: _ => _ end] =>
      let E := fresh "E" in
      destruct (l ++ [a]) eqn:E;
      [exfalso; exact (app_cons_not_nil l [] a (eq_sym E))|]
  | |- context [match ?l with [] => _ | _ :: _ => _ end] =>
      is_var l; destruct l eqn:?
  end; cbn -[total_samples deque_append] in *.

Lemma add_audio_samples (cfg : Config) {Sample} (st : State Sample)
    (audio : chunk Sample) (b : bool) (t : Q) :
  buffer_samples st = total_samples (buffer st) ->
  let st' := fst (add_audio cfg st audio b t) in
  buffer_samples st' = total_samples (buffer st').
Proof.
  destruct st as [buf n ss sst sil pre]; cbn; intros H.
  step_cases.
  all: subst; try reflexivity; try assumption.
  all: rewrite total_samples_app; unfold total_samples; cbn; lia.
Qed.

Lemma add_audio_idle_empty (cfg : Config) {Sample} (st : State Sample)
    (audio : chunk Sample) (b : bool) (t : Q) :
  (speech_started st = false -> buffer st = []) ->
  let st' := fst (add_audio cfg st audio b t) in
  speech_started st' = false -> buffer st' = [].
Proof.
  destruct st as [buf n ss sst sil pre]; cbn; intros H.
  step_cases.
  all: intros; subst; try reflexivity; try discriminate; auto.
Qed.

Lemma add_audio_pre_buffer_bounded (cfg : Config) {Sample} (st : State Sample)
    (audio : chunk Sample) (b : bool) (t : Q) :
  length (pre_buffer st) <= pre_buffer_maxlen cfg ->
  length (pre_buffer (fst (add_audio cfg st audio b t)))
    <= pre_buffer_maxlen cfg.
Proof.
  destruct st as [buf n ss sst sil pre]; cbn; intros H.
  step_cases.
  all: try exact H; rewrite deque_append_fold by exact H; apply length_lastn.
Qed.

Lemma add_audio_conserves (cfg : Config) {Sample} (st : State Sample)
    (audio : chunk Sample) (b : bool) (t : Q) :
  emitted (snd (add_audio cfg st audio b t))
    ++ concat (buffer (fst (add_audio cfg st audio b t)))
  = concat (buffer st) ++ (if b || speech_started st then audio else []).
Proof.
  destruct st as [buf n ss sst sil pre]; cbn; destruct b, ss; cbn.
  all: step_cases.
  all: subst; cbn; rewrite ?app_nil_r; try reflexivity.
  all: try match goal with
       | E : _ = ?c :: ?l |- _ =>
           change (c ++ concat l) with (concat (c :: l)); rewrite <- E
       end.
  all: rewrite ?concat_app; cbn; rewrite ?app_nil_r; reflexivity.
Qed.

Lemma add_all_preserves {Sample} (cfg : Config) (P : State Sample -> Prop)
    (inputs : list (chunk Sample * bool * Q)) :
  (forall st audio b t, P st -> P (fst (add_audio cfg st audio b t))) ->
  forall st, P st -> P (fst (add_all cfg st inputs)).
Proof.
  intros Hstep; induction inputs as [|[[a b] t] rest IH]; intros st H;
    cbn [add_all]; [exact H|].
  specialize (Hstep st a b t H).
  destruct (add_audio cfg st a b t) as [st1 o]; cbn in Hstep.
  specialize (IH st1 Hstep).
  destruct (add_all cfg st1 rest) as [st2 os]; exact IH.
Qed.

Lemma add_all_samples {Sample} (cfg : Config)
    (inputs : list (chunk Sample * bool * Q)) :
  let st := fst (add_all cfg init inputs) in
  buffer_samples st = total_samples (buffer st).
Proof.
  apply (add_all_preserves cfg
           (fun st => buffer_samples st = total_samples (buffer st))).
  - intros st a b t; apply add_audio_samples.
  - reflexivity.
Qed.

Lemma add_all_idle_empty {Sample} (cfg : Config)
    (inputs : list (chunk Sample * bool * Q)) :
  let st := fst (add_all cfg init inputs) in
  speech_started st = false -> buffer st = [].
Proof.
  apply (add_all_preserves cfg
           (fun st => speech_started st = false -> buffer st = [])).
  - intros st a b t; apply add_audio_idle_empty.
  - reflexivity.
Qed.

Lemma add_all_pre_buffer_bounded {Sample} (cfg : Config)
    (inputs : list (chunk Sample * bool * Q)) :
  length (pre_buffer (fst (add_all cfg init inputs))) <= pre_buffer_maxlen cfg.
Proof.
  apply (add_all_preserves cfg
           (fun st => length (pre_buffer st) <= pre_buffer_maxlen cfg)).
  - intros st a b t; apply add_audio_pre_buffer_bounded.
  - cbn; lia.
Qed.

(** [_buffer_samples] counts exactly the samples held in [_buffer], so
    [_get_buffer_duration] is the duration of the buffered audio: after any
    sequence of [add_audio] calls on a new buffer. *)
Theorem buffer_samples_exact {Sample} (cfg : Config)
    (inputs : list (chunk Sample * bool * Q)) :
  let st := fst (add_all cfg init inputs) in
  buffer_samples st = total_samples (buffer st)
  /\ buffer_duration st = samples_duration (total_samples (buffer st)).
Proof.
  cbn zeta; pose proof (add_all_samples cfg inputs) as H; cbn zeta in H.
  split; [exact H|unfold buffer_duration; rewrite H; reflexivity].
Qed.

(** While no speech is in progress ([_speech_started] false), the main
    buffer is empty: after any sequence of [add_audio] calls on a new
    buffer. *)
Theorem idle_buffer_empty {Sample} (cfg : Config)
    (inputs : list (chunk Sample * bool * Q)) :
  let st := fst (add_all cfg init inputs) in
  speech_started st = false -> buffer st = [].
Proof. apply add_all_idle_empty. Qed.

(** The pre-roll never holds more than
    [maxlen = int(SAMPLE_RATE * speech_pad_ms / 1000)] samples; and on a
    buffer reached by any sequence of calls, a silent chunk while idle emits
    nothing, leaves the main buffer empty, and leaves in the pre-roll
    exactly the last [maxlen] samples of the old pre-roll followed by the
    chunk. *)
Theorem idle_silence_fills_preroll {Sample} (cfg : Config)
    (inputs : list (chunk Sample * bool * Q)) (audio : chunk Sample) (t : Q) :
  let st := fst (add_all cfg init inputs) in
  length (pre_buffer st) <= pre_buffer_maxlen cfg
  /\ (speech_started st = false ->
      snd (add_audio cfg st audio false t) = None
      /\ buffer (fst (add_audio cfg st audio false t)) = []
      /\ pre_buffer (fst (add_audio cfg st audio false t))
         = lastn (pre_buffer_maxlen cfg) (pre_buffer st ++ audio)).
Proof.
  cbn zeta.
  pose proof (add_all_pre_buffer_bounded cfg inputs) as Hlen.
  split; [exact Hlen|intros Hidle].
  pose proof (add_all_idle_empty cfg inputs Hidle) as Hbuf.
  destruct (fst (add_all cfg init inputs)) as [buf n ss sst sil pre];
    cbn in *; subst.
  unfold add_audio, check_max_duration, flush, buffer_duration; cbn.
  rewrite deque_append_fold by exact Hlen.
  destruct (Qle_bool _ _); cbn; auto.
Qed.

(** No audio is lost or duplicated by a call: the segment it hands to
    [on_segment_ready] (if any) followed by what stays in the main buffer is
    the old main buffer followed by the chunk, when the chunk is speech or
    speech is in progress; otherwise (a silent chunk while idle) the chunk
    goes to the pre-roll only. *)
Theorem add_audio_no_audio_lost (cfg : Config) {Sample} (st : State Sample)
    (audio : chunk Sample) (b : bool) (t : Q) :
  emitted (snd (add_audio cfg st audio b t))
    ++ concat (buffer (fst (add_audio cfg st audio b t)))
  = concat (buffer st) ++ (if b || speech_started st then audio else []).
Proof. apply add_audio_conserves. Qed.

(** During speech, a silent chunk arriving more than [speech_pad_ms] after
    the first silent chunk of the current pause ends the segment: the main
    buffer, this chunk included, is emitted, the buffer is emptied and the
    buffer returns to idle (the pause start is kept). *)
Theorem silence_ends_segment (cfg : Config) {Sample} (st : State Sample)
    (audio : chunk Sample) (t s0 : Q) :
  speech_started st = true ->
  silence_start_time st = Some s0 ->
  (Z.of_nat (speech_pad_ms cfg) # 1000 < t - s0)%Q ->
  add_audio cfg st audio false t
  = (mkState [] 0 false None (Some s0) (pre_buffer st),
     Some (concat (buffer st ++ [audio]))).
Proof.
  destruct st as [buf n ss sst sil pre]; cbn; intros -> -> Hlt.
  unfold add_audio; cbn.
  destruct (Qle_bool _ _) eqn:E;
    [apply Qle_bool_iff in E; apply Qlt_not_le in Hlt; contradiction|].
  unfold flush; cbn.
  destruct (buf ++ [audio]) as [|c l] eqn:Eb;
    [exfalso; exact (app_cons_not_nil buf [] audio (eq_sym Eb))|].
  reflexivity.
Qed.

Lemma idle_buffer_empty_witness :
  speech_started (fst (add_all default_config init preroll_inputs)) = false
  /\ buffer (fst (add_all default_config init preroll_inputs)) = [].
Proof.
  assert (H : speech_started (fst (add_all default_config init preroll_inputs))
              = false) by (vm_compute; reflexivity).
  split; [exact H|exact (idle_buffer_empty default_config preroll_inputs H)].
Defined.

Lemma idle_silence_fills_preroll_witness :
  speech_started (fst (add_all default_config init (firstn 1 preroll_inputs)))
    = false
  /\ (length (pre_buffer (fst (add_all default_config init (firstn 1 preroll_inputs))))
        <= pre_buffer_maxlen default_config
      /\ (speech_started (fst (add_all default_config init (firstn 1 preroll_inputs)))
            = false ->
          snd (add_audio default_config
                 (fst (add_all default_config init (firstn 1 preroll_inputs)))
                 [2%Z; 3%Z] false 1%Q) = None
          /\ buffer (fst (add_audio default_config
                 (fst (add_all default_config init (firstn 1 preroll_inputs)))
                 [2%Z; 3%Z] false 1%Q)) = []
          /\ pre_buffer (fst (add_audio default_config
                 (fst (add_all default_config init (firstn 1 preroll_inputs)))
                 [2%Z; 3%Z] false 1%Q))
             = lastn (pre_buffer_maxlen default_config)
                 (pre_buffer (fst (add_all default_config init
                                     (firstn 1 preroll_inputs))) ++ [2%Z; 3%Z]))).
Proof.
  split; [vm_compute; reflexivity|].
  exact (idle_silence_fills_preroll default_config (firstn 1 preroll_inputs)
           [2%Z; 3%Z] 1%Q).
Defined.

Lemma silence_ends_segment_witness :
  speech_started (mkState [[5%Z]] 1 true (Some 0%Q) (Some 1%Q) []) = true
  /\ silence_start_time (mkState [[5%Z]] 1 true (Some 0%Q) (Some 1%Q) [])
     = Some 1%Q
  /\ (Z.of_nat (speech_pad_ms default_config) # 1000 < 2 - 1)%Q
  /\ add_audio default_config (mkState [[5%Z]] 1 true (Some 0%Q) (Some 1%Q) [])
       [0%Z] false 2%Q
     = (mkState [] 0 false None (Some 1%Q)
          (pre_buffer (mkState [[5%Z]] 1 true (Some 0%Q) (Some 1%Q) [])),
        Some (concat (buffer (mkState [[5%Z]] 1 true (Some 0%Q) (Some 1%Q) [])
                      ++ [[0%Z]]))).
Proof.
  assert (H1 : speech_started (mkState [[5%Z]] 1 true (Some 0%Q) (Some 1%Q) [])
               = true) by reflexivity.
  assert (H2 : silence_start_time (mkState [[5%Z]] 1 true (Some 0%Q) (Some 1%Q) [])
               = Some 1%Q) by reflexivity.
  assert (H3 : (Z.of_nat (speech_pad_ms default_config) # 1000 < 2 - 1)%Q)
    by (vm_compute; reflexivity).
  split; [exact H1|]; split; [exact H2|]; split; [exact H3|].
  exact (silence_ends_segment default_config _ [0%Z] 2%Q 1%Q H1 H2 H3).
Defined.

(** *** [SimpleAudioBuffer] *)

Lemma total_samples_concat {Sample} (l : list (list Sample)) :
  total_samples l = length (concat l).
Proof.
  induction l as [|c l IH]; cbn; [reflexivity|].
  rewrite length_app, <- IH; reflexivity.
Qed.

Lemma simple_add_all_facts {Sample} (target : nat) (inputs : list (list Sample)) :
  forall st : SimpleBuffer.State Sample,
    SimpleBuffer.buffer_samples st = total_samples (SimpleBuffer.buffer st) ->
    (SimpleBuffer.buffer st = [] \/ SimpleBuffer.buffer_samples st < target) ->
    let '(st', outs) := SimpleBuffer.add_all target st inputs in
    SimpleBuffer.buffer_samples st' = total_samples (SimpleBuffer.buffer st')
    /\ (SimpleBuffer.buffer st' = [] \/ SimpleBuffer.buffer_samples st' < target)
    /\ concat (map emitted outs) ++ concat (SimpleBuffer.buffer st')
       = concat (SimpleBuffer.buffer st) ++ concat inputs
    /\ Forall (fun o => match o with
                        | Some a => target <= length a
                        | None => True
                        end) outs.
Proof.
  induction inputs as [|a rest IH]; intros [buf n] H Hb;
    cbn [SimpleBuffer.add_all].
  - cbn in *; rewrite app_nil_r; repeat split; auto.
  - unfold SimpleBuffer.add_audio;
      cbn [SimpleBuffer.buffer SimpleBuffer.buffer_samples] in *.
    destruct (Nat.leb_spec target (n + length a)) as [E|E].
    + specialize (IH (SimpleBuffer.mkState [] 0) eq_refl (or_introl eq_refl)).
      destruct (SimpleBuffer.add_all target (SimpleBuffer.mkState [] 0) rest)
        as [st2 outs].
      destruct IH as (I1 & I2 & I3 & I4).
      split; [exact I1|]; split; [exact I2|]; split.
      * cbn [map emitted concat]; rewrite <- app_assoc, I3; cbn.
        rewrite concat_app; cbn; rewrite !app_nil_r, app_assoc; reflexivity.
      * constructor; [|exact I4].
        rewrite <- total_samples_concat, total_samples_app, <- H; cbn; lia.
    + specialize (IH (SimpleBuffer.mkState (buf ++ [a]) (n + length a))).
      cbn [SimpleBuffer.buffer SimpleBuffer.buffer_samples] in IH.
      destruct (SimpleBuffer.add_all target
                  (SimpleBuffer.mkState (buf ++ [a]) (n + length a)) rest)
        as [st2 outs].
      destruct IH as (I1 & I2 & I3 & I4).
      * rewrite total_samples_app, <- H; cbn; lia.
      * right; exact E.
      * split; [exact I1|]; split; [exact I2|]; split.
        -- cbn [map emitted concat app]; rewrite I3, concat_app; cbn.
           rewrite app_nil_r, <- app_assoc; reflexivity.
        -- constructor; [exact I|exact I4].
Qed.

(** [SimpleAudioBuffer]: after any sequence of [add_audio] calls on a new
    buffer, [_buffer_samples] counts the buffered samples and stays below
    [_target_samples] (or the buffer is empty); every segment handed to
    [on_segment_ready] holds at least [_target_samples] samples; and the
    segments handed over, followed by what is still buffered, are exactly
    the chunks added, in order. *)
Theorem simple_buffer_segments {Sample} (target : nat)
    (inputs : list (list Sample)) :
  let '(st, outs) := SimpleBuffer.add_all target SimpleBuffer.init inputs in
  SimpleBuffer.buffer_samples st = total_samples (SimpleBuffer.buffer st)
  /\ (SimpleBuffer.buffer st = [] \/ SimpleBuffer.buffer_samples st < target)
  /\ concat (map emitted outs) ++ concat (SimpleBuffer.buffer st) = concat inputs
  /\ Forall (fun o => match o with
                      | Some a => target <= length a
                      | None => True
                      end) outs.
Proof.
  exact (simple_add_all_facts target inputs SimpleBuffer.init eq_refl
           (or_introl eq_refl)).
Qed.

End BufferFacts.

(** ** Facts about [TranslationStateManager] *)
Module ManagerFacts.
Import Manager.


#[local] Arguments join : simpl never.
#[local] Arguments COMMIT_COUNT : simpl never.
#[local] Arguments DRAFT_COMMIT_THRESHOLD : simpl never.
#[local] Arguments MAX_DRAFT_SENTENCES : simpl never.
#[local] Arguments strip : simpl never.
#[local] Arguments segment_sentences : simpl never.
#[local] Arguments lastn : simpl never.
#[local] Arguments is_space : simpl never.
#[local] Arguments is_delimiter : simpl never.
#[local] Arguments retranslate_committed : simpl never.
#[local] Arguments find_committed_end : simpl never.
#[local] Arguments cap_draft : simpl never.
#[local] Arguments translate_draft : simpl never.
#[local] Arguments check_commit_threshold : simpl never.

(** Choose the final world of a fully evaluated run as the witness. *)
Ltac take_final :=
  match goal with
  | |- exists w', ?lhs = _ /\ _ => exists (snd lhs); split; [reflexivity|]; cbn
  end.

Ltac monad_unfold :=
  unfold set_committed_sources, set_committed_paragraphs, set_draft_sources,
    set_draft_translation, set_last_processed_text, build_state,
    bind, ret, try_except, gets, modify, skip, call in *; cbn in *.

Section Proofs.
Variable translator : option Translator.
Variable str_lower : pystr -> pystr.
Variable sm_ratio : pystr -> pystr -> Q.

Lemma retranslate_committed_ok (w : World) :
  exists w', retranslate_committed translator w = (Ok tt, w')
             /\ same_draft (tsm w) (tsm w').
Proof.
  destruct w as [[cs ps ds dt lp] log].
  unfold retranslate_committed; monad_unfold.
  destruct cs as [|c cs]; [|destruct translator as [f|];
    [cbn; destruct (f _ _) as [[|x t]|]|]];
    eexists; (split; [reflexivity|unfold same_draft; simpl; auto]).
Qed.

Lemma find_committed_loop_ok ss cs i matched (w : World) :
  exists n w',
    find_committed_loop translator str_lower sm_ratio ss cs i matched w
      = (Ok n, w')
    /\ same_draft (tsm w) (tsm w').
Proof.
  revert i matched w; induction cs as [|c cs IH]; intros i matched w; simpl.
  - exists matched, w; repeat split.
  - destruct (length ss <=? matched);
      [|destruct (Qle_bool _ _); [apply IH|]];
      monad_unfold;
      match goal with
      | |- context [retranslate_committed ?t ?w0] =>
          destruct (retranslate_committed_ok w0) as (w' & -> & H1 & H2 & H3)
      end;
      exists matched, w'; cbn in *; repeat split; assumption.
Qed.

Lemma find_committed_end_ok ss (w : World) :
  exists n w',
    find_committed_end translator str_lower sm_ratio ss w = (Ok n, w')
    /\ same_draft (tsm w) (tsm w').
Proof.
  unfold find_committed_end; monad_unfold.
  destruct (committed_sources (tsm w)) as [|c cs].
  - exists 0, w; repeat split.
  - apply find_committed_loop_ok.
Qed.

Lemma cap_draft_ok (d : list pystr) (w : World) :
  exists d' w', cap_draft d w = (Ok d', w')
                /\ same_draft (tsm w) (tsm w')
                /\ length d' <= MAX_DRAFT_SENTENCES.
Proof.
  unfold cap_draft; destruct (Nat.ltb_spec MAX_DRAFT_SENTENCES (length d)) as [E|E];
    monad_unfold; do 2 eexists; (split; [reflexivity|]);
    unfold same_draft; cbn; (split; [auto|]).
  - rewrite length_skipn; unfold MAX_DRAFT_SENTENCES in *; lia.
  - exact E.
Qed.

Lemma translate_draft_ok (d : list pystr) (w : World) :
  exists w', translate_draft translator d w = (Ok tt, w')
             /\ draft_sources (tsm w') = draft_sources (tsm w)
             /\ last_processed_text (tsm w') = last_processed_text (tsm w).
Proof.
  unfold translate_draft; destruct translator as [f|];
    [monad_unfold; destruct (f _ _)|]; monad_unfold;
    eexists; (split; [reflexivity|]); cbn; auto.
Qed.

Lemma check_commit_threshold_ok (w : World) :
  exists w', check_commit_threshold translator w = (Ok tt, w')
             /\ length (draft_sources (tsm w'))
                  <= length (draft_sources (tsm w))
             /\ last_processed_text (tsm w') = last_processed_text (tsm w).
Proof.
  destruct w as [[cs ps ds dt lp] log].
  unfold check_commit_threshold; monad_unfold.
  destruct (_ || _); [|eexists; (split; [reflexivity|]); cbn; auto].
  destruct translator as [f|]; monad_unfold;
    [destruct (f _ _) as [[|x t]|]; monad_unfold|];
    destruct (skipn COMMIT_COUNT ds) as [|y r] eqn:Hr; monad_unfold;
    try (destruct (f _ _) as [t'|]; monad_unfold);
    eexists; (split; [reflexivity|]); cbn;
    (split; [|reflexivity]);
    pose proof (f_equal (@length pystr) Hr) as HL;
    rewrite length_skipn in HL; cbn in HL; lia.
Qed.

(** Every [process_text] call returns normally with the state built from
    the final fields, records its input as [_last_processed_text], and
    keeps the draft within [MAX_DRAFT_SENTENCES]. *)
Lemma process_text_ok (s : pystr) (w : World) :
  exists w',
    process_text translator str_lower sm_ratio s w
      = (Ok (state_of (tsm w')), w')
    /\ last_processed_text (tsm w') = s
    /\ (length (draft_sources (tsm w)) <= MAX_DRAFT_SENTENCES ->
        length (draft_sources (tsm w')) <= MAX_DRAFT_SENTENCES).
Proof.
  unfold process_text; monad_unfold.
  destruct (str_eqb s (last_processed_text (tsm w))) eqn:E.
  { exists w; split; [reflexivity|]; split; [|auto].
    symmetry; apply str_eqb_eq; exact E. }
  destruct s as [|c s']; [take_final; split; auto|].
  destruct (strip (c :: s')); [take_final; split; auto|].
  destruct (segment_sentences (c :: s')) as [|x ss];
    [take_final; split; auto|].
  match goal with
  | |- context [find_committed_end ?t ?l ?r ?src ?w0] =>
      destruct (find_committed_end_ok src w0) as (idx & w2 & -> & D1 & D2 & D3)
  end.
  match goal with
  | |- context [cap_draft ?d ?w0] =>
      destruct (cap_draft_ok d w0) as (d' & w3 & -> & (C1 & C2 & C3) & Hd')
  end.
  monad_unfold.
  destruct d' as [|y d''].
  { take_final; split; [congruence|lia]. }
  match goal with
  | |- context [translate_draft ?t ?d ?w0] =>
      destruct (translate_draft_ok d w0) as (w4 & -> & T1 & T2)
  end.
  match goal with
  | |- context [check_commit_threshold ?t ?w0] =>
      destruct (check_commit_threshold_ok w0) as (w5 & -> & K1 & K2)
  end.
  take_final; cbn in *; split; [congruence|].
  intros _; rewrite T1 in K1; cbn in K1; lia.
Qed.

Lemma process_text_repeat (s : pystr) (w : World) :
  last_processed_text (tsm w) = s ->
  process_text translator str_lower sm_ratio s w = (Ok (state_of (tsm w)), w).
Proof.
  intros H; unfold process_text; monad_unfold.
  rewrite H, str_eqb_refl; reflexivity.
Qed.

(** C1: a second [process_text] call with the same string returns the
    state the first returned and changes nothing: in particular it makes no
    translator call (the log of calls is unchanged). *)
Theorem process_text_idempotent (s : pystr) (w : World) :
  let w1 := snd (process_text translator str_lower sm_ratio s w) in
  fst (process_text translator str_lower sm_ratio s w1)
    = fst (process_text translator str_lower sm_ratio s w)
  /\ calls (snd (process_text translator str_lower sm_ratio s w1)) = calls w1
  /\ snd (process_text translator str_lower sm_ratio s w1) = w1.
Proof.
  destruct (process_text_ok s w) as (w1 & Heq & Hlast & _).
  cbn zeta; rewrite Heq; cbn [fst snd].
  rewrite (process_text_repeat s w1 Hlast); auto.
Qed.

Lemma run_ops_draft_bounded (ops : list op) (w : World) :
  length (draft_sources (tsm w)) <= MAX_DRAFT_SENTENCES ->
  length (draft_sources (tsm (snd (run_ops translator str_lower sm_ratio ops w))))
    <= MAX_DRAFT_SENTENCES.
Proof.
  revert w; induction ops as [|[t|] ops IH]; intros w Hw; cbn [run_ops].
  - exact Hw.
  - unfold bind.
    destruct (process_text_ok t w) as (w1 & -> & _ & Hb).
    apply IH, Hb, Hw.
  - unfold bind, reset, modify.
    apply IH; cbn; unfold MAX_DRAFT_SENTENCES; lia.
Qed.

(** C2: after every call of any sequence on a fresh instance the draft holds
    at most [MAX_DRAFT_SENTENCES] sentences; and when a freshly computed
    draft is longer, the step of [process_text] that caps it appends the
    oldest excess to the committed sources, keeps the last
    [MAX_DRAFT_SENTENCES], makes no translator call and adds no paragraph. *)
Theorem draft_sources_bounded :
  (forall (ops : list op) (log : list pystr),
      length (draft_sources
                (tsm (snd (run_ops translator str_lower sm_ratio ops
                             (mkWorld fresh log)))))
        <= MAX_DRAFT_SENTENCES)
  /\ (forall (d : list pystr) (w : World),
        MAX_DRAFT_SENTENCES < length d ->
        cap_draft d w
        = (Ok (skipn (length d - MAX_DRAFT_SENTENCES) d),
           mkWorld
             (mkTSM (committed_sources (tsm w)
                       ++ firstn (length d - MAX_DRAFT_SENTENCES) d)
                    (committed_paragraphs (tsm w))
                    (draft_sources (tsm w))
                    (draft_translation (tsm w))
                    (last_processed_text (tsm w)))
             (calls w))).
Proof.
  split.
  - intros ops log; apply run_ops_draft_bounded; cbn;
      unfold MAX_DRAFT_SENTENCES; lia.
  - intros d w Hd; unfold cap_draft.
    apply Nat.ltb_lt in Hd; rewrite Hd; reflexivity.
Qed.

Lemma lstrip_forallb (l : pystr) :
  forallb is_space (lstrip l) = forallb is_space l.
Proof.
  induction l as [|c l IH]; cbn; [reflexivity|].
  destruct (is_space c) eqn:E; cbn; [exact IH|rewrite E; reflexivity].
Qed.

Lemma forallb_rev_space (l : pystr) :
  forallb is_space (rev l) = forallb is_space l.
Proof.
  induction l as [|c l IH]; cbn; [reflexivity|].
  rewrite forallb_app, IH; cbn; rewrite andb_true_r, andb_comm; reflexivity.
Qed.

Lemma lstrip_all_space (l : pystr) :
  forallb is_space l = true -> lstrip l = [].
Proof.
  induction l as [|c l IH]; cbn; [reflexivity|].
  intros H; apply andb_true_iff in H as [-> H]; exact (IH H).
Qed.

Lemma strip_nil_all_space (s : pystr) :
  strip s = [] -> forallb is_space s = true.
Proof.
  unfold strip; intros H.
  assert (H' : lstrip (rev (lstrip s)) = []).
  { destruct (lstrip (rev (lstrip s))) as [|x r] eqn:E; [reflexivity|].
    cbn in H; destruct (rev r); discriminate. }
  rewrite <- lstrip_forallb, <- forallb_rev_space, <- lstrip_forallb, H'.
  reflexivity.
Qed.

Lemma re_split_all_space (s : pystr) :
  forallb is_space s = true ->
  Forall (fun p => forallb is_space p = true) (re_split s).
Proof.
  induction s as [|c s IH]; cbn; intros H; [repeat constructor|].
  apply andb_true_iff in H as [Hc Hs]; specialize (IH Hs).
  destruct (is_delimiter c); [constructor; auto|].
  destruct (re_split s) as [|p ps]; constructor; cbn; try rewrite Hc;
    inversion IH; auto.
Qed.

(** A text of white space only has no sentences. *)
Lemma segment_sentences_all_space (s : pystr) :
  forallb is_space s = true -> segment_sentences s = [].
Proof.
  intros H; unfold segment_sentences.
  destruct s as [|c r]; [reflexivity|].
  induction (re_split_all_space _ H) as [|p ps Hp _ IH]; [reflexivity|].
  cbn [flat_map]; rewrite IH, app_nil_r.
  unfold strip; rewrite (lstrip_all_space p Hp); reflexivity.
Qed.

Lemma segment_sentences_nonempty (s : pystr) :
  segment_sentences s <> [] -> s <> [] /\ strip s <> [].
Proof.
  intros H; split.
  - intros ->; apply H; reflexivity.
  - intros E; apply H, segment_sentences_all_space, strip_nil_all_space, E.
Qed.

(** C4 (as the code does it): on a fresh instance, an input that segments
    into six sentences [a..f] commits [a;b;c;d], leaves [e;f] as the draft,
    and adds the paragraph only when a translator is set and returns a
    non-empty translation of the batch (its second call, after the draft
    translation). *)
Theorem six_sentences_commit_four (log : list pystr)
    (text a b c d e f : pystr) :
  segment_sentences text = [a; b; c; d; e; f] ->
  let w' := snd (process_text translator str_lower sm_ratio text
                   (mkWorld fresh log)) in
  committed_sources (tsm w') = [a; b; c; d]
  /\ draft_sources (tsm w') = [e; f]
  /\ committed_paragraphs (tsm w') =
       match translator with
       | Some g =>
           match g (log ++ [join space [a; b; c; d; e; f]])
                   (join space [a; b; c; d]) with
           | Some ((_ :: _) as p) => [p]
           | _ => []
           end
       | None => []
       end.
Proof.
  intros Hseg.
  destruct (segment_sentences_nonempty text) as [Hne Hst];
    [rewrite Hseg; discriminate|].
  destruct text as [|ch rest]; [contradiction|].
  unfold process_text; monad_unfold.
  destruct (strip (ch :: rest)) eqn:Es; [contradiction|].
  rewrite Hseg.
  unfold find_committed_end, cap_draft, translate_draft,
    check_commit_threshold, COMMIT_COUNT, DRAFT_COMMIT_THRESHOLD,
    MAX_DRAFT_SENTENCES, lastn; monad_unfold.
  destruct translator as [g|]; monad_unfold; [|auto].
  destruct (g _ (join space [a; b; c; d; e; f])); monad_unfold;
    destruct (g _ (join space [a; b; c; d])) as [[|x t]|]; monad_unfold;
    try destruct (g _ (join space [e; f])); monad_unfold; auto.
Qed.

End Proofs.


(** *** Invariants of [process_text] *)

Section Invariants.
Variable translator : option Translator.
Variable str_lower : pystr -> pystr.
Variable sm_ratio : pystr -> pystr -> Q.

Ltac fin :=
  unfold paragraphs_nonempty, no_translation, same_draft in *;
  repeat match goal with
         | |- _ /\ _ => split
         | |- _ -> _ => intro
         | H : _ /\ _ |- _ => destruct H
         end;
  cbn in *; try discriminate; auto;
  try (rewrite ?length_app; cbn; lia);
  try (constructor; [discriminate|constructor]).

Lemma retranslate_committed_facts (w : World) :
  let w' := snd (retranslate_committed translator w) in
  (paragraphs_nonempty (tsm w) -> paragraphs_nonempty (tsm w'))
  /\ same_draft (tsm w) (tsm w')
  /\ length (calls w') <= length (calls w) + 1
  /\ (translator = None -> no_translation (tsm w) ->
      calls w' = calls w /\ no_translation (tsm w')).
Proof.
  destruct w as [[cs ps ds dt lp] log];
    unfold paragraphs_nonempty, no_translation, same_draft.
  unfold retranslate_committed; monad_unfold.
  destruct cs as [|c cs];
    [|destruct translator as [f|]; [destruct (f _ _) as [[|x t]|]|]];
    monad_unfold; fin.
Qed.

Lemma find_committed_loop_facts ss cs i matched (w : World) :
  let w' := snd (find_committed_loop translator str_lower sm_ratio ss cs i
                   matched w) in
  (paragraphs_nonempty (tsm w) -> paragraphs_nonempty (tsm w'))
  /\ same_draft (tsm w) (tsm w')
  /\ length (calls w') <= length (calls w) + 1
  /\ (translator = None -> no_translation (tsm w) ->
      calls w' = calls w /\ no_translation (tsm w')).
Proof.
  revert i matched w; induction cs as [|c cs IH]; intros i matched w; simpl.
  - unfold same_draft; fin.
  - destruct (length ss <=? matched);
      [|destruct (Qle_bool _ _); [apply IH|]];
      monad_unfold;
      match goal with
      | |- context [retranslate_committed ?t ?w0] =>
          pose proof (retranslate_committed_facts w0) as F;
          destruct (retranslate_committed_ok translator w0) as (w' & E & _);
          rewrite E in F |- *; cbn in F |- *
      end;
      destruct F as (F1 & F2 & F3 & F4);
      unfold paragraphs_nonempty, no_translation, same_draft in *; cbn in *;
      destruct F2 as (G1 & G2 & G3);
      repeat split; intros; try tauto; try congruence; try lia;
      try (apply F4; auto); try (apply F1; auto).
Qed.

Lemma find_committed_end_facts ss (w : World) :
  let w' := snd (find_committed_end translator str_lower sm_ratio ss w) in
  (paragraphs_nonempty (tsm w) -> paragraphs_nonempty (tsm w'))
  /\ same_draft (tsm w) (tsm w')
  /\ length (calls w') <= length (calls w) + 1
  /\ (translator = None -> no_translation (tsm w) ->
      calls w' = calls w /\ no_translation (tsm w')).
Proof.
  unfold find_committed_end; monad_unfold.
  destruct (committed_sources (tsm w)) as [|c cs].
  - fin.
  - apply find_committed_loop_facts.
Qed.

Lemma cap_draft_facts (d : list pystr) (w : World) :
  let w' := snd (cap_draft d w) in
  committed_paragraphs (tsm w') = committed_paragraphs (tsm w)
  /\ same_draft (tsm w) (tsm w')
  /\ calls w' = calls w.
Proof.
  unfold cap_draft; destruct (MAX_DRAFT_SENTENCES <? length d);
    monad_unfold; fin.
Qed.

Lemma translate_draft_facts (d : list pystr) (w : World) :
  let w' := snd (translate_draft translator d w) in
  committed_paragraphs (tsm w') = committed_paragraphs (tsm w)
  /\ draft_sources (tsm w') = draft_sources (tsm w)
  /\ length (calls w') <= length (calls w) + 1
  /\ (translator = None -> w' = w).
Proof.
  unfold translate_draft; destruct translator as [f|];
    [monad_unfold; destruct (f _ _)|]; monad_unfold; fin.
Qed.

Lemma check_commit_threshold_facts (w : World) :
  let w' := snd (check_commit_threshold translator w) in
  (paragraphs_nonempty (tsm w) -> paragraphs_nonempty (tsm w'))
  /\ (draft_inv (tsm w) -> draft_inv (tsm w'))
  /\ length (calls w') <= length (calls w) + 2
  /\ (translator = None -> no_translation (tsm w) ->
      calls w' = calls w /\ no_translation (tsm w')).
Proof.
  destruct w as [[cs ps ds dt lp] log]; unfold draft_inv.
  unfold check_commit_threshold; monad_unfold.
  destruct (_ || _); [|fin].
  destruct translator as [f|]; monad_unfold;
    [destruct (f _ _) as [[|x t]|]; monad_unfold|];
    destruct (skipn COMMIT_COUNT ds) as [|y r] eqn:Hr; monad_unfold;
    try (destruct (f _ _) as [t'|]; monad_unfold);
    fin.
  all: try (apply Forall_app; split; [assumption|constructor; [discriminate|constructor]]).
Qed.

Ltac chain :=
  unfold paragraphs_nonempty, draft_inv, same_draft in *;
  repeat match goal with
         | H : ?A -> _, H' : ?A |- _ => specialize (H H')
         | H : _ /\ _ |- _ => destruct H
         end.

Ltac close :=
  repeat match goal with
         | |- _ /\ _ => split
         | |- _ -> _ => intro
         end;
  chain;
  repeat match goal with
         | H : calls _ = calls _ |- _ =>
             let L := fresh "L" in
             pose proof (f_equal (@length pystr) H) as L;
             revert H; revert L
         end;
  intros; unfold no_translation in *; chain; cbn in *;
  first [ congruence | lia | split; congruence | auto ].

Lemma process_text_facts (s : pystr) (w : World) :
  let w' := snd (process_text translator str_lower sm_ratio s w) in
  (paragraphs_nonempty (tsm w) -> paragraphs_nonempty (tsm w'))
  /\ (draft_inv (tsm w) -> draft_inv (tsm w'))
  /\ length (calls w') <= length (calls w) + 4
  /\ (translator = None -> no_translation (tsm w) ->
      calls w' = calls w /\ no_translation (tsm w')).
Proof.
  unfold process_text; monad_unfold.
  destruct (str_eqb s (last_processed_text (tsm w))); [fin|].
  destruct s as [|c s']; [fin|].
  destruct (strip (c :: s')); [fin|].
  destruct (segment_sentences (c :: s')) as [|x ss]; [fin|].
  match goal with
  | |- context [find_committed_end ?t ?l ?r ?src ?w0] =>
      pose proof (find_committed_end_facts src w0) as F;
      destruct (find_committed_end_ok t l r src w0) as (idx & w2 & E & _);
      rewrite E in F |- *; cbn in F |- *
  end.
  match goal with
  | |- context [cap_draft ?d ?w0] =>
      pose proof (cap_draft_facts d w0) as G;
      destruct (cap_draft_ok d w0) as (d' & w3 & E' & _);
      rewrite E' in G |- *; cbn in G |- *
  end.
  monad_unfold.
  destruct d' as [|y d''].
  { close. }
  match goal with
  | |- context [translate_draft ?t ?d ?w0] =>
      pose proof (translate_draft_facts d w0) as T;
      destruct (translate_draft_ok t d w0) as (w4 & E4 & _);
      rewrite E4 in T |- *; cbn in T |- *
  end.
  match goal with
  | |- context [check_commit_threshold ?t ?w0] =>
      pose proof (check_commit_threshold_facts w0) as K;
      destruct (check_commit_threshold_ok t w0) as (w5 & E5 & _);
      rewrite E5 in K |- *; cbn in K |- *
  end.
  destruct F as (F1 & (D1 & D2 & D3) & F3 & F4),
    G as (G1 & (H1 & H2 & H3) & G3),
    T as (T1 & T2 & T3 & T4), K as (K1 & K2 & K3 & K4).
  cbn in *; unfold paragraphs_nonempty, draft_inv in *.
  split; [|split; [|split]].
  - intros P; apply K1; rewrite T1; cbn; rewrite G1; exact (F1 P).
  - intros _; apply K2; rewrite T2; cbn; discriminate.
  - rewrite G3 in T3; lia.
  - intros Hn Hnt; rewrite (T4 Hn) in K4, K3.
    destruct (F4 Hn Hnt) as (C & N1 & N2).
    destruct (K4 Hn) as [C' N']; [split; cbn; congruence|].
    cbn in *; split; [congruence|exact N'].
Qed.

Lemma run_ops_preserves (P : TSM -> Prop) (ops : list op) :
  (forall s w, P (tsm w) ->
     P (tsm (snd (process_text translator str_lower sm_ratio s w)))) ->
  P fresh ->
  forall w, P (tsm w) ->
    P (tsm (snd (run_ops translator str_lower sm_ratio ops w))).
Proof.
  intros Hp Hf; induction ops as [|[t|] ops IH]; intros w Hw; cbn [run_ops].
  - exact Hw.
  - unfold bind.
    destruct (process_text_ok translator str_lower sm_ratio t w)
      as (w1 & E & _).
    pose proof (Hp t w Hw) as H1; rewrite E in H1 |- *; apply IH, H1.
  - unfold bind, reset, modify; apply IH; exact Hf.
Qed.

(** Every committed paragraph is a non-empty string: after any sequence of
    [process_text] and [reset] calls on a new manager, whatever the
    translator returns or raises. *)
Theorem committed_paragraphs_nonempty (ops : list op) (log : list pystr) :
  paragraphs_nonempty
    (tsm (snd (run_ops translator str_lower sm_ratio ops (mkWorld fresh log)))).
Proof.
  apply run_ops_preserves.
  - intros s w H; apply (process_text_facts s w), H.
  - constructor.
  - constructor.
Qed.

(** An empty draft always comes with an empty draft translation: after any
    sequence of [process_text] and [reset] calls on a new manager, whatever
    the translator returns or raises. *)
Theorem empty_draft_has_no_translation (ops : list op) (log : list pystr) :
  draft_inv
    (tsm (snd (run_ops translator str_lower sm_ratio ops (mkWorld fresh log)))).
Proof.
  apply run_ops_preserves.
  - intros s w H; apply (process_text_facts s w), H.
  - intros _; reflexivity.
  - intros _; reflexivity.
Qed.


(** Input without any sentence (empty, white space only, or delimiters and
    white space only) only becomes [_last_processed_text]: the call makes no
    translator call, changes nothing else and returns the current state. *)
Theorem process_text_no_sentences (s : pystr) (w : World) :
  segment_sentences s = [] ->
  process_text translator str_lower sm_ratio s w
  = (Ok (state_of (tsm w)),
     mkWorld (mkTSM (committed_sources (tsm w)) (committed_paragraphs (tsm w))
                    (draft_sources (tsm w)) (draft_translation (tsm w)) s)
             (calls w)).
Proof.
  intros H; destruct w as [[cs ps ds dt lp] log].
  unfold process_text; monad_unfold.
  destruct (str_eqb s lp) eqn:E.
  - apply str_eqb_eq in E; subst; reflexivity.
  - destruct s as [|c s']; [reflexivity|].
    destruct (strip (c :: s')); [reflexivity|].
    rewrite H; reflexivity.
Qed.

End Invariants.


Lemma process_all_none (str_lower : pystr -> pystr)
    (sm_ratio : pystr -> pystr -> Q) (texts : list pystr) :
  forall w, no_translation (tsm w) ->
    process_all None str_lower sm_ratio texts w
    = (Ok (repeat (mkState [] []) (length texts)),
       snd (process_all None str_lower sm_ratio texts w))
    /\ calls (snd (process_all None str_lower sm_ratio texts w)) = calls w.
Proof.
  induction texts as [|t texts IH]; intros w Hw; cbn [process_all].
  - split; reflexivity.
  - unfold bind.
    destruct (process_text_ok None str_lower sm_ratio t w) as (w1 & E & _).
    pose proof (process_text_facts None str_lower sm_ratio t w) as F.
    rewrite E in F |- *; cbn [snd] in F.
    destruct F as (_ & _ & _ & F); destruct (F eq_refl Hw) as (C & N).
    destruct (IH w1 N) as (E2 & C2).
    destruct (process_all None str_lower sm_ratio texts w1) as [r w2].
    cbn in E2, C2; injection E2 as ->; cbn.
    destruct N as (N1 & N2); unfold state_of; rewrite N1, N2.
    split; [reflexivity|congruence].
Qed.

(** A manager built without a translator (the constructor's default) never
    calls one and only ever returns empty translations: every
    [TranslationState] a sequence of [process_text] calls on a new manager
    returns has empty [committed_text] and [draft_text]. *)
Theorem no_translator_empty_states (str_lower : pystr -> pystr)
    (sm_ratio : pystr -> pystr -> Q) (texts : list pystr) (log : list pystr) :
  fst (process_all None str_lower sm_ratio texts (mkWorld fresh log))
    = Ok (repeat (mkState [] []) (length texts))
  /\ calls (snd (process_all None str_lower sm_ratio texts (mkWorld fresh log)))
     = log.
Proof.
  destruct (process_all_none str_lower sm_ratio texts (mkWorld fresh log))
    as (E & C); [split; reflexivity|].
  rewrite E; split; [reflexivity|exact C].
Qed.


(** One [process_text] call makes at most four translator calls (the
    re-translation of trimmed committed sources, the draft, the committed
    batch and the remaining draft), from any state and for any translator;
    and four are reached: after committing [a b c d], an input diverging at
    its second sentence with six new ones makes all four. *)
Theorem process_text_call_budget :
  (forall (translator : option Translator) (str_lower : pystr -> pystr)
          (sm_ratio : pystr -> pystr -> Q) (s : pystr) (w : World),
      length (calls (snd (process_text translator str_lower sm_ratio s w)))
        <= length (calls w) + 4)
  /\ (let w1 := snd (process_text (Some tag_translator) ascii_lower difflib_ratio
                      (py "a, b, c, d, e, f") (mkWorld fresh [])) in
      length (calls (snd (process_text (Some tag_translator) ascii_lower
                            difflib_ratio (py "a, y, z, u, v, p, q") w1)))
      = length (calls w1) + 4).
Proof.
  split.
  - intros translator str_lower sm_ratio s w;
      apply (process_text_facts translator str_lower sm_ratio s w).
  - vm_compute; reflexivity.
Qed.

Lemma process_text_no_sentences_witness :
  segment_sentences (py " ..!? , ") = []
  /\ process_text (Some tag_translator) ascii_lower difflib_ratio (py " ..!? , ")
       (snd (process_text (Some tag_translator) ascii_lower difflib_ratio
               six_sentences_text (mkWorld fresh [])))
     = (Ok (state_of (tsm (snd (process_text (Some tag_translator) ascii_lower
               difflib_ratio six_sentences_text (mkWorld fresh []))))),
        mkWorld
          (mkTSM (committed_sources (tsm (snd (process_text (Some tag_translator)
                    ascii_lower difflib_ratio six_sentences_text (mkWorld fresh [])))))
                 (committed_paragraphs (tsm (snd (process_text (Some tag_translator)
                    ascii_lower difflib_ratio six_sentences_text (mkWorld fresh [])))))
                 (draft_sources (tsm (snd (process_text (Some tag_translator)
                    ascii_lower difflib_ratio six_sentences_text (mkWorld fresh [])))))
                 (draft_translation (tsm (snd (process_text (Some tag_translator)
                    ascii_lower difflib_ratio six_sentences_text (mkWorld fresh [])))))
                 (py " ..!? , "))
          (calls (snd (process_text (Some tag_translator) ascii_lower difflib_ratio
                         six_sentences_text (mkWorld fresh []))))).
Proof.
  assert (H : segment_sentences (py " ..!? , ") = []) by (vm_compute; reflexivity).
  split; [exact H|].
  exact (process_text_no_sentences (Some tag_translator) ascii_lower difflib_ratio
           (py " ..!? , ") _ H).
Defined.


(** *** Shape of the segmented sentences *)

Lemma forallb_lstrip (p : N -> bool) (l : pystr) :
  forallb p l = true -> forallb p (lstrip l) = true.
Proof.
  induction l as [|c l IH]; cbn; [auto|].
  intros H; apply andb_true_iff in H as [Hc Hl].
  destruct (is_space c); [exact (IH Hl)|cbn; rewrite Hc, Hl; reflexivity].
Qed.

Lemma forallb_rev (p : N -> bool) (l : pystr) :
  forallb p (rev l) = forallb p l.
Proof.
  induction l as [|c l IH]; cbn; [reflexivity|].
  rewrite forallb_app, IH; cbn; rewrite andb_true_r, andb_comm; reflexivity.
Qed.

Lemma forallb_strip (p : N -> bool) (l : pystr) :
  forallb p l = true -> forallb p (strip l) = true.
Proof.
  intros H; unfold strip; rewrite forallb_rev.
  apply forallb_lstrip; rewrite forallb_rev; apply forallb_lstrip, H.
Qed.

Lemma length_lstrip (l : pystr) : length (lstrip l) <= length l.
Proof.
  induction l as [|c l IH]; cbn; [lia|].
  destruct (is_space c); cbn; lia.
Qed.

Lemma length_strip (l : pystr) : length (strip l) <= length l.
Proof.
  unfold strip; rewrite length_rev.
  pose proof (length_lstrip (rev (lstrip l))) as H1.
  pose proof (length_lstrip l) as H2.
  rewrite length_rev in H1; lia.
Qed.

Lemma lstrip_no_lead (l : pystr) :
  match lstrip l with c :: _ => is_space c = false | [] => True end.
Proof.
  induction l as [|c l IH]; cbn; [exact I|].
  destruct (is_space c) eqn:E; [exact IH|exact E].
Qed.

Lemma lstrip_id (l : pystr) :
  match l with c :: _ => is_space c = false | [] => True end -> lstrip l = l.
Proof. destruct l as [|c l]; cbn; [auto|intros ->; reflexivity]. Qed.

Lemma lstrip_suffix (l : pystr) : exists p, l = p ++ lstrip l.
Proof.
  induction l as [|c l [p IH]]; cbn; [exists []; reflexivity|].
  destruct (is_space c); [exists (c :: p); cbn; congruence|exists []; reflexivity].
Qed.

Lemma strip_idem (s : pystr) : strip (strip s) = strip s.
Proof.
  set (u := lstrip s).
  assert (Hu : match u with c :: _ => is_space c = false | [] => True end)
    by apply lstrip_no_lead.
  assert (Hs : strip s = rev (lstrip (rev u))) by reflexivity.
  destruct (lstrip_suffix (rev u)) as [p Hp].
  assert (Huv : u = rev (lstrip (rev u)) ++ rev p).
  { rewrite <- (rev_involutive u) at 1; rewrite Hp at 1.
    rewrite rev_app_distr; reflexivity. }
  assert (Hv : lstrip (rev (lstrip (rev u))) = rev (lstrip (rev u))).
  { apply lstrip_id.
    destruct (rev (lstrip (rev u))) as [|c v] eqn:Ev; [exact I|].
    rewrite Huv in Hu; exact Hu. }
  rewrite Hs; unfold strip at 1; rewrite Hv, rev_involutive.
  rewrite (lstrip_id (lstrip (rev u))) by apply lstrip_no_lead.
  reflexivity.
Qed.

Lemma forallb_firstn (p : N -> bool) (n : nat) (l : pystr) :
  forallb p l = true -> forallb p (firstn n l) = true.
Proof.
  rewrite <- (firstn_skipn n l) at 1; rewrite forallb_app.
  intros H; apply andb_true_iff in H; tauto.
Qed.

Lemma forallb_skipn (p : N -> bool) (n : nat) (l : pystr) :
  forallb p l = true -> forallb p (skipn n l) = true.
Proof.
  rewrite <- (firstn_skipn n l) at 1; rewrite forallb_app.
  intros H; apply andb_true_iff in H; tauto.
Qed.

Lemma fixed_chunks_spec (p : N -> bool) (fuel : nat) :
  forall part : pystr,
    forallb p part = true ->
    Forall (fun ch => forallb p ch = true /\ length ch <= MAX_SENTENCE_LENGTH)
      (fixed_chunks fuel part).
Proof.
  induction fuel as [|fuel IH]; intros part H; cbn [fixed_chunks]; [constructor|].
  destruct part as [|c r]; [constructor|].
  constructor.
  - split; [apply forallb_firstn, H|rewrite length_firstn; lia].
  - apply IH, forallb_skipn, H.
Qed.

Lemma re_split_no_delimiter (s : pystr) :
  Forall (fun x => forallb (fun c => negb (is_delimiter c)) x = true)
    (re_split s).
Proof.
  induction s as [|c s IH]; cbn; [repeat constructor|].
  destruct (is_delimiter c) eqn:E; [constructor; [reflexivity|exact IH]|].
  destruct (re_split s) as [|q qs]; [repeat constructor; cbn; rewrite E; reflexivity|].
  inversion IH as [|? ? Hq Hqs]; subst.
  constructor; [cbn; rewrite E, Hq; reflexivity|exact Hqs].
Qed.

(** Every sentence [_segment_sentences] returns is non-empty, has no
    leading or trailing white space ([s.strip() == s]), is at most
    [MAX_SENTENCE_LENGTH] characters long and contains no delimiter. *)
Theorem segment_sentences_shape (text : pystr) :
  Forall (fun x => x <> []
                   /\ strip x = x
                   /\ length x <= MAX_SENTENCE_LENGTH
                   /\ forallb (fun c => negb (is_delimiter c)) x = true)
    (segment_sentences text).
Proof.
  unfold segment_sentences; destruct text as [|c r]; [constructor|].
  apply Forall_flat_map.
  eapply Forall_impl; [|apply re_split_no_delimiter].
  intros part Hp; cbn zeta.
  pose proof (forallb_strip _ part Hp) as Hsp.
  destruct (strip part) as [|x xs] eqn:Es; [constructor|].
  destruct (Nat.ltb_spec MAX_SENTENCE_LENGTH (length (x :: xs))) as [L|L].
  - apply Forall_flat_map.
    eapply Forall_impl; [|apply fixed_chunks_spec, Hsp].
    intros ch [Hc Hl].
    pose proof (length_strip ch) as Hls.
    pose proof (forallb_strip _ ch Hc) as Hcs.
    destruct (strip ch) as [|y ys] eqn:Ec; [constructor|].
    constructor; [|constructor].
    split; [discriminate|]; split; [|split; [lia|exact Hcs]].
    rewrite <- Ec; apply strip_idem.
  - constructor; [|constructor].
    split; [discriminate|]; split; [|split; [exact L|exact Hsp]].
    rewrite <- Es; apply strip_idem.
Qed.

(** ** Concrete runs (with the [difflib] model) *)

(** C4 witness. *)
Lemma six_sentences_commit_four_witness :
  segment_sentences six_sentences_text
    = [py "A"; py "B"; py "C"; py "D"; py "E"; py "F"]
  /\ (let w' := snd (process_text (Some tag_translator) ascii_lower
                       difflib_ratio six_sentences_text (mkWorld fresh [])) in
      committed_sources (tsm w') = [py "A"; py "B"; py "C"; py "D"]
      /\ draft_sources (tsm w') = [py "E"; py "F"]
      /\ committed_paragraphs (tsm w') =
           match Some tag_translator with
           | Some g =>
               match g ([] ++ [join space [py "A"; py "B"; py "C"; py "D";
                                           py "E"; py "F"]])
                       (join space [py "A"; py "B"; py "C"; py "D"]) with
               | Some ((_ :: _) as p) => [p]
               | _ => []
               end
           | None => []
           end).
Proof.
  split; [vm_compute; reflexivity|].
  apply (six_sentences_commit_four (Some tag_translator) ascii_lower
           difflib_ratio [] six_sentences_text).
  vm_compute; reflexivity.
Defined.

(** C4 counterexample: a manager built without a translator (the
    constructor's default) commits the batch but adds no paragraph. *)
Lemma six_sentences_without_translator :
  segment_sentences six_sentences_text
    = [py "A"; py "B"; py "C"; py "D"; py "E"; py "F"]
  /\ committed_sources (tsm (snd (process_text None ascii_lower difflib_ratio
                          six_sentences_text (mkWorld fresh []))))
     = [py "A"; py "B"; py "C"; py "D"]
  /\ committed_paragraphs (tsm (snd (process_text None ascii_lower difflib_ratio
                          six_sentences_text (mkWorld fresh []))))
     = [].
Proof. vm_compute; repeat split. Qed.

(** C5: two sentences of 80 characters trigger the commit by length; one
    sentence is committed, but the draft is cut by [COMMIT_COUNT], so the
    sentence left behind is in neither list. *)
Lemma short_draft_commit_drops_sentence :
  segment_sentences run_on_text = [repeat 97%N 80; repeat 98%N 80]
  /\ (let w' := snd (process_text (Some tag_translator) ascii_lower
                       difflib_ratio run_on_text (mkWorld fresh [])) in
      committed_sources (tsm w') = [repeat 97%N 80]
      /\ draft_sources (tsm w') = []
      /\ draft_translation (tsm w') = []).
Proof. vm_compute; repeat split. Qed.

(** C6: after two commits, a divergence at the second sentence trims the
    committed sources to one; the re-translation raises and the two old
    paragraphs stay. *)
Lemma paragraphs_outnumber_sources :
  let w := snd (process_all (Some (failing_translator [py "a"])) ascii_lower
                  difflib_ratio divergence_texts (mkWorld fresh [])) in
  committed_sources (tsm w) = [py "a"]
  /\ committed_paragraphs (tsm w) = [py "Ta b c d"; py "Te f g h"]
  /\ length (committed_sources (tsm w)) < length (committed_paragraphs (tsm w)).
Proof. vm_compute; repeat split; auto. Qed.

(** C7: the raising translator is never seen by the caller (every call
    returns a state), but the text it should have rebuilt is not emptied:
    the committed paragraphs keep the translations of the trimmed
    sentences, and a raising re-translation after a commit keeps the
    translation of the whole pre-commit draft. *)
Lemma translator_error_keeps_stale_text :
  (exists sts,
      process_all (Some (failing_translator [py "a"])) ascii_lower
        difflib_ratio divergence_texts (mkWorld fresh [])
      = (Ok sts, snd (process_all (Some (failing_translator [py "a"]))
                        ascii_lower difflib_ratio divergence_texts
                        (mkWorld fresh [])))
      /\ committed_text (last sts (mkState [] []))
         = py "Ta b c d" ++ newline ++ py "Te f g h")
  /\ (let w := snd (process_text (Some (failing_translator [py "e f"]))
                      ascii_lower difflib_ratio (py "a, b, c, d, e, f")
                      (mkWorld fresh [])) in
      draft_sources (tsm w) = [py "e"; py "f"]
      /\ draft_translation (tsm w) = py "Ta b c d e f").
Proof.
  split; [eexists; split; vm_compute; reflexivity|].
  vm_compute; split; reflexivity.
Qed.

End ManagerFacts.
